(** * Morton (Z-order) codec of ocmesh: include/morton.h

    A shallow embedding of [ocmesh::details] over [Z].  Unsigned machine
    integers are non-negative [Z] values; every place where C++ truncates
    (a left shift in a 32 or 64 bit type, a narrowing conversion) is written
    out as a reduction modulo the width. *)

From Stdlib Require Import ZArith List Bool Lia.
Import ListNotations.

Local Open Scope Z_scope.

(** ** Machine integers *)

Definition uint8_t  (v : Z) : Z := v mod 2 ^ 8.
Definition uint32_t (v : Z) : Z := v mod 2 ^ 32.
Definition uint64_t (v : Z) : Z := v mod 2 ^ 64.

Definition is_u8  (v : Z) : Prop := 0 <= v < 2 ^ 8.
Definition is_u32 (v : Z) : Prop := 0 <= v < 2 ^ 32.
Definition is_u64 (v : Z) : Prop := 0 <= v < 2 ^ 64.

(** Left shifts in an unsigned type of 32 (resp. 64) bits drop what leaves
    the word. *)
Definition shl32 (v k : Z) : Z := uint32_t (Z.shiftl v k).
Definition shl64 (v k : Z) : Z := uint64_t (Z.shiftl v k).

(** ** [enum class coordinate_t : uint8_t] *)

Module coordinate_t.
Inductive t : Set := x | y | z.

(** The conversion [uint8_t(S)]. *)
Definition to_uint8 (s : t) : Z :=
  match s with
  | x => 0
  | y => 1
  | z => 2
  end.
End coordinate_t.

(** ** [glm::u32vec3], a structural triple *)

Module glm.
Record u32vec3 : Set := mk_u32vec3 { x : Z; y : Z; z : Z }.

Definition wf (v : u32vec3) : Prop :=
  is_u32 (x v) /\ is_u32 (y v) /\ is_u32 (z v).
End glm.

(** ** The table builder *)

Definition masks : list Z :=
  [ 0;
    0x49249249; 0xC30C30C3;
    0x0F00F00F; 0xFF0000FF ].

(** [interleave(uint32_t x, int level)]; the recursion is on [level], which
    the only caller starts at 4. *)
Fixpoint interleave_level (x : Z) (level : nat) : Z :=
  match level with
  | O => x
  | S level' =>
      interleave_level
        (Z.land (Z.lor x (shl32 x (Z.shiftl 1 (Z.of_nat level))))
                (nth level masks 0))
        level'
  end.

(** [interleave(uint8_t x)]. *)
Definition interleave (x : Z) : Z := interleave_level (uint32_t x) 4.

(** [std14::make_index_sequence<256>]: the indices 0, 1, ..., 255. *)
Definition index_sequence (n : nat) : list Z := map Z.of_nat (seq 0 n).

(** The function-local [static constexpr uint32_t table[]] of [morton<S>]. *)
Definition table (S : coordinate_t.t) (Idx : list Z) : list Z :=
  map (fun i => shl32 (interleave (uint8_t i)) (coordinate_t.to_uint8 S)) Idx.

(** ** The encoder *)

(** [morton<S>(uint32_t value, index_sequence<Idx...>)]. *)
Definition morton_seq (S : coordinate_t.t) (value : Z) (Idx : list Z) : Z :=
  let table := table S Idx in
  let low    := uint8_t (Z.land value 0xFF) in
  let middle := uint8_t (Z.land (Z.shiftr value 8) 0xFF) in
  let high   := uint8_t (Z.land (Z.shiftr value 16) 0xFF) in
  Z.lor (Z.lor (shl64 (uint64_t (nth (Z.to_nat high) table 0)) 48)
               (shl64 (uint64_t (nth (Z.to_nat middle) table 0)) 24))
        (uint64_t (nth (Z.to_nat low) table 0)).

(** [morton<S>(uint32_t value)]. *)
Definition morton_S (S : coordinate_t.t) (value : Z) : Z :=
  morton_seq S value (index_sequence 256).

(** [morton(glm::u32vec3 coordinates)]. *)
Definition morton (coordinates : glm.u32vec3) : Z :=
  Z.lor (Z.lor (morton_S coordinate_t.x (glm.x coordinates))
               (morton_S coordinate_t.y (glm.y coordinates)))
        (morton_S coordinate_t.z (glm.z coordinates)).

(** ** The decoder *)

(** [unmorton<S>(uint64_t x)]. *)
Definition unmorton_S (S : coordinate_t.t) (x : Z) : Z :=
  let x := Z.shiftr x (coordinate_t.to_uint8 S) in
  let x := Z.land x 0x9249249249249249 in
  let x := Z.land (Z.lor x (Z.shiftr x 2))  0x30C30C30C30C30C3 in
  let x := Z.land (Z.lor x (Z.shiftr x 4))  0xF00F00F00F00F00F in
  let x := Z.land (Z.lor x (Z.shiftr x 8))  0x00FF0000FF0000FF in
  let x := Z.land (Z.lor x (Z.shiftr x 16)) 0xFFFF00000000FFFF in
  let x := Z.land (Z.lor x (Z.shiftr x 32)) 0x00000000FFFFFFFF in
  uint32_t x.

(** [unmorton(uint64_t m)]. *)
Definition unmorton (m : Z) : glm.u32vec3 :=
  let x := unmorton_S coordinate_t.x m in
  let y := unmorton_S coordinate_t.y m in
  let z := unmorton_S coordinate_t.z m in
  glm.mk_u32vec3 x y z.

(** ** The same code with every source of undefined behaviour made explicit

    Array subscripts must be inside the array, shift amounts must be below
    the width of the (promoted) left operand, and the [constexpr] recursion
    of [interleave] must end within the depth an implementation evaluates.
    [None] stands for leaving defined behaviour. *)

Module Checked.

Definition bind {A B : Type} (c : option A) (k : A -> option B) : option B :=
  match c with
  | Some a => k a
  | None => None
  end.

Notation "v <- c ;; k" := (bind c (fun v => k))
  (at level 61, c at next level, right associativity).

(** [a[i]] *)
Definition index (a : list Z) (i : Z) : option Z :=
  if i <? 0 then None else nth_error a (Z.to_nat i).

(** [v << k] and [v >> k] in an unsigned type of [w] bits. *)
Definition shl (w v k : Z) : option Z :=
  if (0 <=? k) && (k <? w) then Some (Z.shiftl v k mod 2 ^ w) else None.

Definition shr (w v k : Z) : option Z :=
  if (0 <=? k) && (k <? w) then Some (Z.shiftr v k) else None.

(** [v << k] in [int]: the result has to be representable. *)
Definition shl_int (v k : Z) : option Z :=
  if (0 <=? k) && (k <? 32) && (0 <=? v) && (Z.shiftl v k <? 2 ^ 31)
  then Some (Z.shiftl v k) else None.

(** Depth up to which a recursive [constexpr] call is evaluated. *)
Definition constexpr_depth : nat := 512.

Fixpoint interleave_level (depth : nat) (x level : Z) : option Z :=
  match depth with
  | O => None
  | S depth' =>
      if level =? 0 then Some x
      else
        k <- shl_int 1 level ;;
        s <- shl 32 x k ;;
        m <- index masks level ;;
        interleave_level depth' (Z.land (Z.lor x s) m) (level - 1)
  end.

Definition interleave (x : Z) : option Z :=
  interleave_level constexpr_depth (uint32_t x) 4.

Fixpoint table (S : coordinate_t.t) (Idx : list Z) : option (list Z) :=
  match Idx with
  | [] => Some []
  | i :: Idx' =>
      e <- interleave (uint8_t i) ;;
      e <- shl 32 e (coordinate_t.to_uint8 S) ;;
      t <- table S Idx' ;;
      Some (e :: t)
  end.

Definition morton_seq (S : coordinate_t.t) (value : Z) (Idx : list Z)
  : option Z :=
  table <- table S Idx ;;
  middle <- shr 32 value 8 ;;
  high <- shr 32 value 16 ;;
  let low    := uint8_t (Z.land value 0xFF) in
  let middle := uint8_t (Z.land middle 0xFF) in
  let high   := uint8_t (Z.land high 0xFF) in
  th <- index table high ;;
  th <- shl 64 (uint64_t th) 48 ;;
  tm <- index table middle ;;
  tm <- shl 64 (uint64_t tm) 24 ;;
  tl <- index table low ;;
  Some (Z.lor (Z.lor th tm) (uint64_t tl)).

Definition morton_S (S : coordinate_t.t) (value : Z) : option Z :=
  morton_seq S value (index_sequence 256).

Definition morton (coordinates : glm.u32vec3) : option Z :=
  mx <- morton_S coordinate_t.x (glm.x coordinates) ;;
  my <- morton_S coordinate_t.y (glm.y coordinates) ;;
  mz <- morton_S coordinate_t.z (glm.z coordinates) ;;
  Some (Z.lor (Z.lor mx my) mz).

(** One line [x = (x | (x >> k)) & mask] of [unmorton<S>]. *)
Definition fold_step (x k mask : Z) : option Z :=
  s <- shr 64 x k ;;
  Some (Z.land (Z.lor x s) mask).

Definition unmorton_S (S : coordinate_t.t) (x : Z) : option Z :=
  x <- shr 64 x (coordinate_t.to_uint8 S) ;;
  let x := Z.land x 0x9249249249249249 in
  x <- fold_step x 2  0x30C30C30C30C30C3 ;;
  x <- fold_step x 4  0xF00F00F00F00F00F ;;
  x <- fold_step x 8  0x00FF0000FF0000FF ;;
  x <- fold_step x 16 0xFFFF00000000FFFF ;;
  x <- fold_step x 32 0x00000000FFFFFFFF ;;
  Some (uint32_t x).

Definition unmorton (m : Z) : option glm.u32vec3 :=
  x <- unmorton_S coordinate_t.x m ;;
  y <- unmorton_S coordinate_t.y m ;;
  z <- unmorton_S coordinate_t.z m ;;
  Some (glm.mk_u32vec3 x y z).

End Checked.

(** ** Reference bit interleaving

    The Morton code as the header's introduction describes it: bit [i] of
    [x], [y] and [z] sits at position [3i], [3i+1] and [3i+2]; 21 bits of
    each coordinate fit into the 64 bit word. *)

Definition bit (v i : Z) : Z := Z.b2z (Z.testbit v i).

Definition morton_ref (v : glm.u32vec3) : Z :=
  fold_right
    (fun i acc =>
       Z.lor (Z.lor (Z.lor (Z.shiftl (bit (glm.x v) i) (3 * i))
                           (Z.shiftl (bit (glm.y v) i) (3 * i + 1)))
                    (Z.shiftl (bit (glm.z v) i) (3 * i + 2)))
             acc)
    0 (index_sequence 21).

(** The valid range of a coordinate component. *)
Definition in_range (c : Z) : Prop := 0 <= c < 2 ^ 21.

Definition valid (v : glm.u32vec3) : Prop :=
  in_range (glm.x v) /\ in_range (glm.y v) /\ in_range (glm.z v).

(** ** Auxiliary definitions for the proofs *)

(** One entry of the table of [morton<S>], as a function of the subscript. *)
Definition entry (S : coordinate_t.t) (i : Z) : Z :=
  shl32 (interleave (uint8_t i)) (coordinate_t.to_uint8 S).

(** One line [x = (x | (x >> k)) & mask] of [unmorton<S>]. *)
Definition fold_step (k mask x : Z) : Z :=
  Z.land (Z.lor x (Z.shiftr x k)) mask.

(** The three values of [coordinate_t]. *)
Definition coordinates : list coordinate_t.t :=
  [coordinate_t.x; coordinate_t.y; coordinate_t.z].

(** [coordinates.x], [coordinates.y] or [coordinates.z]. *)
Definition component (S : coordinate_t.t) (v : glm.u32vec3) : Z :=
  match S with
  | coordinate_t.x => glm.x v
  | coordinate_t.y => glm.y v
  | coordinate_t.z => glm.z v
  end.

(** The coordinate whose bits occupy position [j] of a code. *)
Definition axis (j : Z) : coordinate_t.t :=
  if j mod 3 =? 0 then coordinate_t.x
  else if j mod 3 =? 1 then coordinate_t.y
  else coordinate_t.z.

(** Two vectors differ at most in the low 8 bits of the component [S]. *)
Definition same_but_low_byte (S : coordinate_t.t) (v v' : glm.u32vec3) : Prop :=
  Z.shiftr (component S v) 8 = Z.shiftr (component S v') 8 /\
  forall S', S' <> S -> component S' v = component S' v'.

(** Number of low bits of the component [S] that reach the code: bit [i]
    goes to position [3i + S], which has to stay below 64. *)
Definition stored_bits (S : coordinate_t.t) : Z :=
  match S with
  | coordinate_t.x => 22
  | coordinate_t.y => 21
  | coordinate_t.z => 21
  end.

(** The part of a vector that its code keeps. *)
Definition stored (v : glm.u32vec3) : glm.u32vec3 :=
  glm.mk_u32vec3 (glm.x v mod 2 ^ 22) (glm.y v mod 2 ^ 21) (glm.z v mod 2 ^ 21).

(** The vector with every component shifted right by one: the cell of the
    next coarser level of the octree that contains [v]. *)
Definition halve (v : glm.u32vec3) : glm.u32vec3 :=
  glm.mk_u32vec3 (Z.shiftr (glm.x v) 1) (Z.shiftr (glm.y v) 1)
                 (Z.shiftr (glm.z v) 1).

(** Componentwise bitwise or of two vectors. *)
Definition vec_lor (v w : glm.u32vec3) : glm.u32vec3 :=
  glm.mk_u32vec3 (Z.lor (glm.x v) (glm.x w)) (Z.lor (glm.y v) (glm.y w))
                 (Z.lor (glm.z v) (glm.z w)).

(** Componentwise order of two vectors. *)
Definition vec_le (v w : glm.u32vec3) : Prop :=
  glm.x v <= glm.x w /\ glm.y v <= glm.y w /\ glm.z v <= glm.z w.

(** Every component lies within the bits that reach the code. *)
Definition fits (v : glm.u32vec3) : Prop :=
  0 <= glm.x v < 2 ^ 22 /\ 0 <= glm.y v < 2 ^ 21 /\ 0 <= glm.z v < 2 ^ 21.

(** The position of [v] among the eight cells of its parent. *)
Definition octant (v : glm.u32vec3) : Z :=
  glm.x v mod 2 + 2 * (glm.y v mod 2) + 4 * (glm.z v mod 2).

(** Every component is a number of [n] bits. *)
Definition below (n : Z) (v : glm.u32vec3) : Prop :=
  0 <= glm.x v < 2 ^ n /\ 0 <= glm.y v < 2 ^ n /\ 0 <= glm.z v < 2 ^ n.

(** * Bit-level theory *)

(** ** Helpers on bits of [Z] *)

Lemma testbit_above (n m j : Z) :
  0 <= m < 2 ^ n -> n <= j -> Z.testbit m j = false.
Proof.
  intros Hm Hj.
  assert (Hn : 0 <= n).
  { destruct (Z.le_gt_cases 0 n) as [|Hneg]; [assumption|].
    rewrite (Z.pow_neg_r 2 n Hneg) in Hm. lia. }
  rewrite <- (Z.mod_small m (2 ^ n)) by assumption.
  apply Z.mod_pow2_bits_high. lia.
Qed.

Lemma lor_range (n a b : Z) :
  0 <= n -> 0 <= a < 2 ^ n -> 0 <= b < 2 ^ n -> 0 <= Z.lor a b < 2 ^ n.
Proof.
  intros Hn Ha Hb.
  assert (Hnn : 0 <= Z.lor a b) by (apply Z.lor_nonneg; lia).
  split; [assumption|].
  rewrite <- (Z.mod_small a (2 ^ n)), <- (Z.mod_small b (2 ^ n)) by assumption.
  rewrite <- !Z.land_ones, <- Z.land_lor_distr_l, Z.land_ones by assumption.
  apply Z.mod_pos_bound. apply Z.pow_pos_nonneg; lia.
Qed.

Lemma in_index_sequence (n : nat) (i : Z) :
  In i (index_sequence n) <-> 0 <= i < Z.of_nat n.
Proof.
  unfold index_sequence. rewrite in_map_iff. split.
  - intros [k [<- Hk]]. apply in_seq in Hk. lia.
  - intros Hi. exists (Z.to_nat i). rewrite in_seq. lia.
Qed.

Lemma existsb_ext_in {A : Type} (g h : A -> bool) (l : list A) :
  (forall a, In a l -> g a = h a) -> existsb g l = existsb h l.
Proof.
  induction l as [|a l IH]; intros Hgh; [reflexivity|].
  cbn [existsb]. rewrite (Hgh a) by now left.
  rewrite IH; [reflexivity|]. intros b Hb. apply Hgh. now right.
Qed.

(** Splitting off the top bit of an [n+1] bit number. *)
Lemma split_top_bit (n m : Z) :
  0 <= n -> 0 <= m < 2 ^ (n + 1) ->
  m = Z.lor (m mod 2 ^ n) (if Z.testbit m n then 2 ^ n else 0).
Proof.
  intros Hn Hm. apply Z.bits_inj'. intros j Hj.
  rewrite Z.lor_spec, Z.testbit_mod_pow2 by assumption.
  destruct (Z.ltb_spec j n) as [Hlt|Hge]; cbn [andb].
  - destruct (Z.testbit m n).
    + rewrite Z.pow2_bits_eqb by assumption.
      replace (n =? j) with false by (symmetry; apply Z.eqb_neq; lia).
      now rewrite orb_false_r.
    + now rewrite Z.bits_0, orb_false_r.
  - destruct (Z.eq_dec j n) as [->|Hne].
    + destruct (Z.testbit m n); [|now rewrite Z.bits_0].
      rewrite Z.pow2_bits_eqb by assumption. now rewrite Z.eqb_refl.
    + rewrite (testbit_above (n + 1) m j) by lia.
      destruct (Z.testbit m n); [|now rewrite Z.bits_0].
      rewrite Z.pow2_bits_eqb by assumption.
      symmetry. apply Z.eqb_neq. lia.
Qed.

(** ** Functions that commute with bitwise or

    Every operation of the codec (shifts, masks, truncations and the table
    lookups) commutes with [Z.lor] and maps 0 to 0.  Such a function is
    determined by its values on the powers of two. *)

Section OrHom.

Variable f : Z -> Z.
Hypothesis f_zero : f 0 = 0.
Hypothesis f_lor : forall a b, f (Z.lor a b) = Z.lor (f a) (f b).

Lemma or_hom_testbit (n : nat) (m j : Z) :
  0 <= m < 2 ^ Z.of_nat n ->
  Z.testbit (f m) j =
  existsb (fun i => Z.testbit m i && Z.testbit (f (2 ^ i)) j)
          (index_sequence n).
Proof.
  revert m. induction n as [|n IH]; intros m Hm.
  - assert (m = 0) by (cbn in Hm; lia). subst m.
    now rewrite f_zero, Z.bits_0.
  - rewrite Nat2Z.inj_succ, <- Z.add_1_r in Hm.
    unfold index_sequence. rewrite seq_S, map_app, existsb_app.
    cbn [map existsb Nat.add]. fold (index_sequence n).
    rewrite orb_false_r.
    rewrite (split_top_bit (Z.of_nat n) m) at 1 by lia.
    rewrite f_lor, Z.lor_spec. f_equal.
    + rewrite IH by (apply Z.mod_pos_bound; apply Z.pow_pos_nonneg; lia).
      apply existsb_ext_in. intros i Hi. apply in_index_sequence in Hi.
      rewrite Z.mod_pow2_bits_low by lia. reflexivity.
    + destruct (Z.testbit m (Z.of_nat n)); cbn [andb]; [reflexivity|].
      now rewrite f_zero, Z.bits_0.
Qed.

(** When [f] sends the [i]-th power of two either to 0 or to the power of
    two [p i], bit [j] of [f m] is set exactly when some bit [i] of [m]
    that is sent to [j] is set. *)
Lemma or_hom_moves_bits (n : nat) (c : Z -> bool) (p : Z -> Z) :
  (forall i, 0 <= i < Z.of_nat n ->
             f (2 ^ i) = if c i then 2 ^ p i else 0) ->
  (forall i, 0 <= i < Z.of_nat n -> c i = true -> 0 <= p i) ->
  forall m j,
    0 <= m < 2 ^ Z.of_nat n ->
    (Z.testbit (f m) j = true <->
     exists i, 0 <= i < Z.of_nat n /\ c i = true /\ p i = j /\
               Z.testbit m i = true).
Proof.
  intros Hf Hp m j Hm.
  rewrite (or_hom_testbit n m j Hm), existsb_exists. split.
  - intros [i [Hi Hb]]. apply in_index_sequence in Hi.
    apply andb_true_iff in Hb. destruct Hb as [Hmi Hfi].
    rewrite (Hf i Hi) in Hfi. exists i.
    destruct (c i) eqn:Hc; [|now rewrite Z.bits_0 in Hfi].
    rewrite Z.pow2_bits_eqb in Hfi by (apply Hp; assumption).
    apply Z.eqb_eq in Hfi. auto.
  - intros [i [Hi [Hc [Hpi Hmi]]]]. exists i. split.
    + now apply in_index_sequence.
    + rewrite Hmi, (Hf i Hi), Hc. cbn [andb].
      rewrite Z.pow2_bits_eqb by (apply Hp; assumption).
      now apply Z.eqb_eq.
Qed.

End OrHom.

(** ** The operations of the codec commute with bitwise or *)

Lemma mod_pow2_lor (n a b : Z) :
  0 <= n -> Z.lor a b mod 2 ^ n = Z.lor (a mod 2 ^ n) (b mod 2 ^ n).
Proof.
  intros Hn. now rewrite <- !Z.land_ones, Z.land_lor_distr_l.
Qed.

Lemma uint8_lor (a b : Z) : uint8_t (Z.lor a b) = Z.lor (uint8_t a) (uint8_t b).
Proof. apply mod_pow2_lor. lia. Qed.

Lemma uint32_lor (a b : Z) :
  uint32_t (Z.lor a b) = Z.lor (uint32_t a) (uint32_t b).
Proof. apply mod_pow2_lor. lia. Qed.

Lemma uint64_lor (a b : Z) :
  uint64_t (Z.lor a b) = Z.lor (uint64_t a) (uint64_t b).
Proof. apply mod_pow2_lor. lia. Qed.

Lemma shl32_lor (a b k : Z) : shl32 (Z.lor a b) k = Z.lor (shl32 a k) (shl32 b k).
Proof. unfold shl32. now rewrite Z.shiftl_lor, uint32_lor. Qed.

Lemma shl64_lor (a b k : Z) : shl64 (Z.lor a b) k = Z.lor (shl64 a k) (shl64 b k).
Proof. unfold shl64. now rewrite Z.shiftl_lor, uint64_lor. Qed.

Lemma lor_interchange (a b c d : Z) :
  Z.lor (Z.lor a b) (Z.lor c d) = Z.lor (Z.lor a c) (Z.lor b d).
Proof.
  rewrite <- !Z.lor_assoc. f_equal.
  rewrite !Z.lor_assoc. f_equal. apply Z.lor_comm.
Qed.

Create Rewrite HintDb lor_distr.

#[local] Hint Rewrite
  Z.shiftr_lor Z.shiftl_lor Z.land_lor_distr_l
  uint8_lor uint32_lor uint64_lor shl32_lor shl64_lor : lor_distr.

Lemma interleave_level_lor (level : nat) (a b : Z) :
  interleave_level (Z.lor a b) level =
  Z.lor (interleave_level a level) (interleave_level b level).
Proof.
  revert a b. induction level as [|level IH]; intros a b; [reflexivity|].
  cbn [interleave_level]. rewrite <- IH. f_equal.
  autorewrite with lor_distr. now rewrite lor_interchange.
Qed.

Lemma interleave_level_zero (level : nat) : interleave_level 0 level = 0.
Proof.
  induction level as [|level IH]; [reflexivity|].
  cbn [interleave_level]. unfold shl32, uint32_t.
  rewrite Z.shiftl_0_l. cbn [Z.modulo Z.div_eucl Z.lor Z.land]. exact IH.
Qed.

Lemma interleave_lor (a b : Z) :
  interleave (Z.lor a b) = Z.lor (interleave a) (interleave b).
Proof. unfold interleave. now rewrite uint32_lor, interleave_level_lor. Qed.

Lemma interleave_zero : interleave 0 = 0.
Proof. apply interleave_level_zero. Qed.

Lemma uint8_range (v : Z) : 0 <= uint8_t v < 256.
Proof. unfold uint8_t. apply Z.mod_pos_bound. reflexivity. Qed.

Lemma uint8_idem (v : Z) : uint8_t (uint8_t v) = uint8_t v.
Proof. unfold uint8_t. apply Z.mod_mod. discriminate. Qed.

Lemma index_sequence_length (n : nat) : length (index_sequence n) = n.
Proof. unfold index_sequence. now rewrite length_map, length_seq. Qed.

Lemma index_sequence_nth (n k : nat) :
  (k < n)%nat -> nth k (index_sequence n) 0 = Z.of_nat k.
Proof.
  intros Hk. unfold index_sequence.
  change 0 with (Z.of_nat 0). rewrite map_nth. now rewrite seq_nth.
Qed.

Lemma table_nth (S : coordinate_t.t) (i : Z) :
  nth (Z.to_nat (uint8_t i)) (table S (index_sequence 256)) 0 = entry S i.
Proof.
  pose proof (uint8_range i) as Hi.
  unfold table.
  rewrite (nth_indep _ 0 (entry S 0))
    by (rewrite length_map, index_sequence_length; lia).
  unfold entry at 1.
  rewrite (map_nth (fun i => shl32 (interleave (uint8_t i)) _)).
  rewrite index_sequence_nth by lia.
  rewrite Z2Nat.id by lia. unfold entry. now rewrite uint8_idem.
Qed.

Lemma entry_lor (S : coordinate_t.t) (a b : Z) :
  entry S (Z.lor a b) = Z.lor (entry S a) (entry S b).
Proof. unfold entry. now rewrite uint8_lor, interleave_lor, shl32_lor. Qed.

Lemma morton_S_entries (S : coordinate_t.t) (value : Z) :
  morton_S S value =
  Z.lor (Z.lor (shl64 (uint64_t (entry S (Z.land (Z.shiftr value 16) 0xFF))) 48)
               (shl64 (uint64_t (entry S (Z.land (Z.shiftr value 8) 0xFF))) 24))
        (uint64_t (entry S (Z.land value 0xFF))).
Proof.
  unfold morton_S, morton_seq. cbv zeta. now rewrite !table_nth.
Qed.

Lemma morton_S_lor (S : coordinate_t.t) (a b : Z) :
  morton_S S (Z.lor a b) = Z.lor (morton_S S a) (morton_S S b).
Proof.
  rewrite !morton_S_entries.
  autorewrite with lor_distr. rewrite !entry_lor.
  autorewrite with lor_distr.
  rewrite (lor_interchange (shl64 (uint64_t (entry S (Z.land (Z.shiftr a 16) 255))) 48)).
  apply lor_interchange.
Qed.

Lemma morton_S_zero (S : coordinate_t.t) : morton_S S 0 = 0.
Proof. destruct S; now vm_compute. Qed.

Lemma fold_step_lor (k mask a b : Z) :
  fold_step k mask (Z.lor a b) =
  Z.lor (fold_step k mask a) (fold_step k mask b).
Proof.
  unfold fold_step. autorewrite with lor_distr. now rewrite lor_interchange.
Qed.

Lemma unmorton_S_steps (S : coordinate_t.t) (x : Z) :
  unmorton_S S x =
  uint32_t
    (fold_step 32 0x00000000FFFFFFFF
       (fold_step 16 0xFFFF00000000FFFF
          (fold_step 8 0x00FF0000FF0000FF
             (fold_step 4 0xF00F00F00F00F00F
                (fold_step 2 0x30C30C30C30C30C3
                   (Z.land (Z.shiftr x (coordinate_t.to_uint8 S))
                           0x9249249249249249)))))).
Proof. reflexivity. Qed.

Lemma unmorton_S_lor (S : coordinate_t.t) (a b : Z) :
  unmorton_S S (Z.lor a b) = Z.lor (unmorton_S S a) (unmorton_S S b).
Proof.
  rewrite !unmorton_S_steps.
  rewrite Z.shiftr_lor, Z.land_lor_distr_l, !fold_step_lor.
  apply uint32_lor.
Qed.

Lemma unmorton_S_zero (S : coordinate_t.t) : unmorton_S S 0 = 0.
Proof. destruct S; now vm_compute. Qed.


(** ** Values on the powers of two *)

Lemma in_coordinates (S : coordinate_t.t) : In S coordinates.
Proof. destruct S; cbn; auto. Qed.

Lemma interleave_pow2 (i : Z) :
  0 <= i < 8 -> interleave (2 ^ i) = 2 ^ (3 * i).
Proof.
  intros Hi.
  assert (Hall : forallb (fun i => interleave (2 ^ i) =? 2 ^ (3 * i))
                         (index_sequence 8) = true) by now vm_compute.
  rewrite forallb_forall in Hall. apply Z.eqb_eq, Hall.
  now apply (in_index_sequence 8).
Qed.

Lemma morton_S_pow2 (S : coordinate_t.t) (i : Z) :
  0 <= i < 32 ->
  morton_S S (2 ^ i) =
  if 3 * i + coordinate_t.to_uint8 S <? 64
  then 2 ^ (3 * i + coordinate_t.to_uint8 S) else 0.
Proof.
  intros Hi.
  assert (Hall :
    forallb (fun S => forallb (fun i =>
       morton_S S (2 ^ i) =?
       (if 3 * i + coordinate_t.to_uint8 S <? 64
        then 2 ^ (3 * i + coordinate_t.to_uint8 S) else 0))
      (index_sequence 32)) coordinates = true) by now vm_compute.
  rewrite forallb_forall in Hall. specialize (Hall S (in_coordinates S)).
  rewrite forallb_forall in Hall. apply Z.eqb_eq, Hall.
  now apply (in_index_sequence 32).
Qed.

Lemma unmorton_S_pow2 (S : coordinate_t.t) (i : Z) :
  0 <= i < 64 ->
  unmorton_S S (2 ^ i) =
  if (coordinate_t.to_uint8 S <=? i) && ((i - coordinate_t.to_uint8 S) mod 3 =? 0)
  then 2 ^ ((i - coordinate_t.to_uint8 S) / 3) else 0.
Proof.
  intros Hi.
  assert (Hall :
    forallb (fun S => forallb (fun i =>
       unmorton_S S (2 ^ i) =?
       (if (coordinate_t.to_uint8 S <=? i)
           && ((i - coordinate_t.to_uint8 S) mod 3 =? 0)
        then 2 ^ ((i - coordinate_t.to_uint8 S) / 3) else 0))
      (index_sequence 64)) coordinates = true) by now vm_compute.
  rewrite forallb_forall in Hall. specialize (Hall S (in_coordinates S)).
  rewrite forallb_forall in Hall. apply Z.eqb_eq, Hall.
  now apply (in_index_sequence 64).
Qed.

Lemma to_uint8_range (S : coordinate_t.t) : 0 <= coordinate_t.to_uint8 S <= 2.
Proof. destruct S; cbn; lia. Qed.

(** ** Where each bit goes *)

(** Bit [3i] of [interleave b] is bit [i] of [b]. *)
Lemma interleave_bits (b j : Z) :
  is_u8 b ->
  Z.testbit (interleave b) j =
  (0 <=? j) && (j <? 24) && (j mod 3 =? 0) && Z.testbit b (j / 3).
Proof.
  intros Hb. apply eq_true_iff_eq.
  rewrite (or_hom_moves_bits interleave interleave_zero interleave_lor 8
             (fun _ => true) (fun i => 3 * i));
    [ | intros; now apply interleave_pow2 | intros; lia | exact Hb ].
  rewrite !andb_true_iff, Z.leb_le, Z.ltb_lt, Z.eqb_eq. split.
  - intros [i [Hi [_ [Hj Hbit]]]]. subst j.
    replace (3 * i / 3) with i by (Z.div_mod_to_equations; lia).
    repeat split; try lia; try assumption.
    Z.div_mod_to_equations; lia.
  - intros [[[H0 H24] Hmod] Hbit]. exists (j / 3).
    repeat split; try assumption; Z.div_mod_to_equations; lia.
Qed.

(** Bit [3i + S] of [morton<S>(v)] is bit [i] of [v], as far as it fits
    into 64 bits. *)
Lemma morton_S_bits (S : coordinate_t.t) (v j : Z) :
  is_u32 v ->
  Z.testbit (morton_S S v) j =
  (coordinate_t.to_uint8 S <=? j) && (j <? 64)
  && ((j - coordinate_t.to_uint8 S) mod 3 =? 0)
  && Z.testbit v ((j - coordinate_t.to_uint8 S) / 3).
Proof.
  intros Hv. pose proof (to_uint8_range S) as Hs. apply eq_true_iff_eq.
  rewrite (or_hom_moves_bits (morton_S S) (morton_S_zero S) (morton_S_lor S) 32
             (fun i => 3 * i + coordinate_t.to_uint8 S <? 64)
             (fun i => 3 * i + coordinate_t.to_uint8 S));
    [ | intros; now apply morton_S_pow2 | intros; lia | exact Hv ].
  rewrite !andb_true_iff, Z.leb_le, Z.ltb_lt, Z.eqb_eq. split.
  - intros [i [Hi [Hc [Hj Hbit]]]]. apply Z.ltb_lt in Hc. subst j.
    replace ((3 * i + coordinate_t.to_uint8 S - coordinate_t.to_uint8 S) / 3)
      with i by (Z.div_mod_to_equations; lia).
    repeat split; try lia; try assumption.
    Z.div_mod_to_equations; lia.
  - intros [[[H0 H64] Hmod] Hbit].
    exists ((j - coordinate_t.to_uint8 S) / 3).
    rewrite Z.ltb_lt.
    repeat split; try assumption; Z.div_mod_to_equations; lia.
Qed.

(** Bit [i] of [unmorton<S>(m)] is bit [3i + S] of [m]. *)
Lemma unmorton_S_bits (S : coordinate_t.t) (m j : Z) :
  is_u64 m -> 0 <= j ->
  Z.testbit (unmorton_S S m) j =
  (3 * j + coordinate_t.to_uint8 S <? 64)
  && Z.testbit m (3 * j + coordinate_t.to_uint8 S).
Proof.
  intros Hm Hj. pose proof (to_uint8_range S) as Hs. apply eq_true_iff_eq.
  rewrite (or_hom_moves_bits (unmorton_S S) (unmorton_S_zero S)
             (unmorton_S_lor S) 64
             (fun i => (coordinate_t.to_uint8 S <=? i)
                       && ((i - coordinate_t.to_uint8 S) mod 3 =? 0))
             (fun i => (i - coordinate_t.to_uint8 S) / 3));
    [ | intros; now apply unmorton_S_pow2
      | intros i Hi Hc; apply andb_true_iff in Hc; destruct Hc as [Hc _];
        apply Z.leb_le in Hc; Z.div_mod_to_equations; lia
      | exact Hm ].
  rewrite andb_true_iff, Z.ltb_lt. split.
  - intros [i [Hi [Hc [Hij Hbit]]]].
    apply andb_true_iff in Hc. destruct Hc as [Hle Hmod].
    apply Z.leb_le in Hle. apply Z.eqb_eq in Hmod.
    assert (Heq : 3 * j + coordinate_t.to_uint8 S = i)
      by (Z.div_mod_to_equations; lia).
    rewrite Heq. split; [lia | assumption].
  - intros [H64 Hbit]. exists (3 * j + coordinate_t.to_uint8 S).
    rewrite andb_true_iff, Z.leb_le, Z.eqb_eq.
    repeat split; try assumption; try lia; Z.div_mod_to_equations; lia.
Qed.

(** ** The code as a whole *)

Lemma to_uint8_axis (j : Z) : coordinate_t.to_uint8 (axis j) = j mod 3.
Proof.
  unfold axis.
  destruct (Z.eqb_spec (j mod 3) 0); [cbn; lia|].
  destruct (Z.eqb_spec (j mod 3) 1); [cbn; lia|].
  cbn. Z.div_mod_to_equations; lia.
Qed.

Lemma axis_to_uint8 (S : coordinate_t.t) (i : Z) :
  axis (3 * i + coordinate_t.to_uint8 S) = S.
Proof.
  unfold axis.
  replace ((3 * i + coordinate_t.to_uint8 S) mod 3)
    with (coordinate_t.to_uint8 S)
    by (pose proof (to_uint8_range S); Z.div_mod_to_equations; lia).
  now destruct S.
Qed.

(** Settles the comparisons of a goal that the context decides. *)
Ltac absurd_arith := solve [exfalso; Z.div_mod_to_equations; lia].

Ltac bool_simpl :=
  repeat (rewrite ?andb_true_r, ?andb_false_r, ?orb_true_r, ?orb_false_r;
          cbn [andb orb]).

Ltac decide_with spec a b :=
  first [ destruct (spec a b); [absurd_arith|]
        | destruct (spec a b); [|absurd_arith] ];
  bool_simpl.

Ltac decide_tests :=
  repeat match goal with
    | |- context [?a <=? ?b] => decide_with Z.leb_spec a b
    | |- context [?a <? ?b] => decide_with Z.ltb_spec a b
    | |- context [?a =? ?b] => decide_with Z.eqb_spec a b
    end.

Lemma morton_S_range (S : coordinate_t.t) (v : Z) : is_u64 (morton_S S v).
Proof.
  assert (Hmod : forall a, 0 <= a mod 2 ^ 64 < 2 ^ 64)
    by (intros a; apply Z.mod_pos_bound; reflexivity).
  unfold morton_S, morton_seq, is_u64. cbv zeta.
  repeat apply lor_range; try lia; apply Hmod.
Qed.

Lemma morton_range (v : glm.u32vec3) : is_u64 (morton v).
Proof.
  unfold morton, is_u64.
  apply lor_range; [lia | | apply morton_S_range].
  apply lor_range; [lia | apply morton_S_range ..].
Qed.

Lemma unmorton_S_range (S : coordinate_t.t) (m : Z) : is_u32 (unmorton_S S m).
Proof.
  unfold unmorton_S, is_u32, uint32_t. cbv zeta.
  apply Z.mod_pos_bound. reflexivity.
Qed.

Lemma unmorton_wf (m : Z) : glm.wf (unmorton m).
Proof. repeat split; apply unmorton_S_range. Qed.

(** Bit [j] of a code is bit [j / 3] of the coordinate [axis j]. *)
Lemma morton_testbit (v : glm.u32vec3) (j : Z) :
  glm.wf v -> 0 <= j < 64 ->
  Z.testbit (morton v) j = Z.testbit (component (axis j) v) (j / 3).
Proof.
  intros [Hx [Hy Hz]] Hj.
  unfold morton. rewrite !Z.lor_spec, !morton_S_bits by assumption.
  unfold axis, component. cbn [coordinate_t.to_uint8].
  assert (Hcase : j mod 3 = 0 \/ j mod 3 = 1 \/ j mod 3 = 2)
    by (Z.div_mod_to_equations; lia).
  destruct Hcase as [H|[H|H]]; decide_tests;
    f_equal; Z.div_mod_to_equations; lia.
Qed.

Lemma morton_testbit_at (S : coordinate_t.t) (v : glm.u32vec3) (i : Z) :
  glm.wf v -> 0 <= i -> 3 * i + coordinate_t.to_uint8 S < 64 ->
  Z.testbit (morton v) (3 * i + coordinate_t.to_uint8 S) =
  Z.testbit (component S v) i.
Proof.
  intros Hwf Hi Hlt. pose proof (to_uint8_range S) as Hs.
  rewrite morton_testbit by (try assumption; lia).
  rewrite axis_to_uint8. f_equal. Z.div_mod_to_equations; lia.
Qed.

Lemma valid_wf (v : glm.u32vec3) : valid v -> glm.wf v.
Proof.
  unfold valid, in_range, glm.wf, is_u32.
  intros [Hx [Hy Hz]].
  assert (2 ^ 21 < 2 ^ 32) by reflexivity. lia.
Qed.

Lemma valid_component (S : coordinate_t.t) (v : glm.u32vec3) :
  valid v -> in_range (component S v).
Proof. intros [Hx [Hy Hz]]. now destruct S. Qed.

(** Decoding one coordinate of a code gives back the low 21 bits of what
    was encoded (22 bits for [x]). *)
Lemma unmorton_S_morton (S : coordinate_t.t) (v : glm.u32vec3) :
  valid v -> unmorton_S S (morton v) = component S v.
Proof.
  intros Hv. pose proof (valid_component S v Hv) as Hc.
  pose proof (to_uint8_range S) as Hs.
  apply Z.bits_inj'. intros j Hj.
  rewrite unmorton_S_bits by (apply morton_range || assumption).
  destruct (Z.ltb_spec (3 * j + coordinate_t.to_uint8 S) 64) as [Hlt|Hge];
    cbn [andb].
  - apply morton_testbit_at; [now apply valid_wf | assumption ..].
  - symmetry. apply (testbit_above 21); [exact Hc | lia].
Qed.

Lemma unmorton_morton (v : glm.u32vec3) : valid v -> unmorton (morton v) = v.
Proof.
  intros Hv. unfold unmorton. cbv zeta.
  rewrite !unmorton_S_morton by assumption. now destruct v.
Qed.

Lemma component_unmorton (S : coordinate_t.t) (m : Z) :
  component S (unmorton m) = unmorton_S S m.
Proof. now destruct S. Qed.

(** Encoding what was decoded gives back every one of the 64 bits. *)
Lemma morton_unmorton (m : Z) : is_u64 m -> morton (unmorton m) = m.
Proof.
  intros Hm. apply Z.bits_inj'. intros j Hj.
  destruct (Z.lt_ge_cases j 64) as [Hlt|Hge].
  - rewrite morton_testbit by (try apply unmorton_wf; lia).
    rewrite component_unmorton.
    rewrite unmorton_S_bits by (try assumption; Z.div_mod_to_equations; lia).
    rewrite to_uint8_axis.
    replace (3 * (j / 3) + j mod 3) with j by (Z.div_mod_to_equations; lia).
    decide_tests. reflexivity.
  - rewrite (testbit_above 64 m j) by assumption.
    apply (testbit_above 64); [apply morton_range | assumption].
Qed.

(** ** Agreement with the reference interleaving *)

Lemma bit_testbit (c i k : Z) :
  Z.testbit (bit c i) k = (k =? 0) && Z.testbit c i.
Proof.
  unfold bit. destruct (Z.testbit c i); cbn [Z.b2z].
  - change 1 with (2 ^ 0). rewrite Z.pow2_bits_eqb by lia.
    now rewrite andb_true_r, Z.eqb_sym.
  - now rewrite Z.bits_0, andb_false_r.
Qed.

Lemma morton_ref_testbit (v : glm.u32vec3) (j : Z) :
  0 <= j ->
  Z.testbit (morton_ref v) j =
  (j <? 63) && Z.testbit (component (axis j) v) (j / 3).
Proof.
  intros Hj. unfold morton_ref.
  transitivity
    (existsb (fun i => (j / 3 =? i) && Z.testbit (component (axis j) v) i)
             (index_sequence 21)).
  - induction (index_sequence 21) as [|i l IH]; [apply Z.bits_0|].
    cbn [fold_right existsb]. rewrite Z.lor_spec, IH. f_equal.
    rewrite !Z.lor_spec, !Z.shiftl_spec, !bit_testbit by assumption.
    unfold axis, component.
    assert (Hcase : j mod 3 = 0 \/ j mod 3 = 1 \/ j mod 3 = 2)
      by (Z.div_mod_to_equations; lia).
    destruct Hcase as [H|[H|H]]; decide_tests;
      repeat match goal with
        | |- context [?a =? ?b] => destruct (Z.eqb_spec a b)
        end;
      (reflexivity || absurd_arith).
  - apply eq_true_iff_eq.
    rewrite existsb_exists, andb_true_iff, Z.ltb_lt. split.
    + intros [i [Hi Hb]]. apply in_index_sequence in Hi.
      apply andb_true_iff in Hb. destruct Hb as [Heq Hb].
      apply Z.eqb_eq in Heq. subst i.
      split; [Z.div_mod_to_equations; lia | assumption].
    + intros [Hlt Hb]. exists (j / 3). split.
      * apply in_index_sequence. Z.div_mod_to_equations; lia.
      * now rewrite Z.eqb_refl.
Qed.

Lemma morton_eq_ref (v : glm.u32vec3) : valid v -> morton v = morton_ref v.
Proof.
  intros Hv. apply Z.bits_inj'. intros j Hj.
  rewrite morton_ref_testbit by assumption.
  destruct (Z.ltb_spec j 63) as [Hlt|Hge]; cbn [andb].
  - apply morton_testbit; [now apply valid_wf | lia].
  - destruct (Z.lt_ge_cases j 64) as [Hlt|Hge'].
    + rewrite morton_testbit by (try apply valid_wf; try assumption; lia).
      apply (testbit_above 21); [now apply valid_component|].
      Z.div_mod_to_equations; lia.
    + apply (testbit_above 64); [apply morton_range | assumption].
Qed.

(** ** The checked code never leaves defined behaviour *)

Lemma checked_shl (w v k : Z) :
  0 <= k < w -> Checked.shl w v k = Some (Z.shiftl v k mod 2 ^ w).
Proof. intros Hk. unfold Checked.shl. decide_tests. reflexivity. Qed.

Lemma checked_shr (w v k : Z) :
  0 <= k < w -> Checked.shr w v k = Some (Z.shiftr v k).
Proof. intros Hk. unfold Checked.shr. decide_tests. reflexivity. Qed.

Lemma checked_index (a : list Z) (i : Z) :
  0 <= i < Z.of_nat (length a) ->
  Checked.index a i = Some (nth (Z.to_nat i) a 0).
Proof.
  intros Hi. unfold Checked.index. decide_tests.
  apply nth_error_nth'. lia.
Qed.

Lemma checked_interleave_level (level depth : nat) (x : Z) :
  (level <= 4)%nat -> (level < depth)%nat ->
  Checked.interleave_level depth x (Z.of_nat level) =
  Some (interleave_level x level).
Proof.
  revert depth x. induction level as [|level IH]; intros depth x H4 Hd.
  - destruct depth; [lia|]. reflexivity.
  - destruct depth as [|depth]; [lia|].
    cbn [Checked.interleave_level interleave_level].
    replace (Z.of_nat (S level) =? 0) with false
      by (symmetry; apply Z.eqb_neq; lia).
    assert (Hk : Checked.shl_int 1 (Z.of_nat (S level)) =
                 Some (Z.shiftl 1 (Z.of_nat (S level)))
                 /\ 0 <= Z.shiftl 1 (Z.of_nat (S level)) < 32).
    { do 4 (destruct level as [|level]; [now vm_compute|]). lia. }
    destruct Hk as [Hk Hrange]. rewrite Hk. cbn [Checked.bind].
    rewrite checked_shl by assumption. cbn [Checked.bind].
    rewrite checked_index by (cbn [length masks]; lia).
    cbn [Checked.bind]. rewrite Nat2Z.id.
    replace (Z.of_nat (S level) - 1) with (Z.of_nat level) by lia.
    apply IH; lia.
Qed.

Lemma checked_interleave (x : Z) :
  Checked.interleave x = Some (interleave x).
Proof.
  unfold Checked.interleave, interleave.
  apply (checked_interleave_level 4); unfold Checked.constexpr_depth; lia.
Qed.

Lemma checked_table (S : coordinate_t.t) (Idx : list Z) :
  Checked.table S Idx = Some (table S Idx).
Proof.
  induction Idx as [|i Idx IH]; [reflexivity|].
  cbn [Checked.table table map].
  rewrite checked_interleave. cbn [Checked.bind].
  rewrite checked_shl by (pose proof (to_uint8_range S); lia).
  cbn [Checked.bind]. rewrite IH. reflexivity.
Qed.

Lemma checked_table_index (S : coordinate_t.t) (i : Z) :
  Checked.index (table S (index_sequence 256)) (uint8_t i) =
  Some (nth (Z.to_nat (uint8_t i)) (table S (index_sequence 256)) 0).
Proof.
  apply checked_index. unfold table.
  rewrite length_map, index_sequence_length.
  pose proof (uint8_range i). lia.
Qed.

Lemma checked_morton_S (S : coordinate_t.t) (value : Z) :
  Checked.morton_S S value = Some (morton_S S value).
Proof.
  unfold Checked.morton_S, Checked.morton_seq, morton_S, morton_seq.
  rewrite checked_table. cbn [Checked.bind].
  rewrite !checked_shr by lia. cbn [Checked.bind]. cbv zeta.
  rewrite !checked_table_index. cbn [Checked.bind].
  rewrite !checked_shl by lia. reflexivity.
Qed.

Lemma checked_morton (v : glm.u32vec3) : Checked.morton v = Some (morton v).
Proof.
  unfold Checked.morton. now rewrite !checked_morton_S.
Qed.

Lemma checked_fold_step (x k mask : Z) :
  0 <= k < 64 ->
  Checked.fold_step x k mask = Some (fold_step k mask x).
Proof.
  intros Hk. unfold Checked.fold_step. now rewrite checked_shr.
Qed.

Lemma checked_unmorton_S (S : coordinate_t.t) (m : Z) :
  Checked.unmorton_S S m = Some (unmorton_S S m).
Proof.
  unfold Checked.unmorton_S.
  rewrite checked_shr by (pose proof (to_uint8_range S); lia).
  cbn [Checked.bind]. cbv zeta.
  rewrite !checked_fold_step by lia. reflexivity.
Qed.

Lemma checked_unmorton (m : Z) : Checked.unmorton m = Some (unmorton m).
Proof.
  unfold Checked.unmorton. now rewrite !checked_unmorton_S.
Qed.

(** * Properties of the codec *)

(** C1. Round trip: for every coordinate triple whose components all lie in
    [0, 2^21), decoding the code of the triple returns the triple:
    [unmorton (morton (x, y, z)) = (x, y, z)]. *)
Theorem round_trip (x y z : Z) :
  in_range x -> in_range y -> in_range z ->
  unmorton (morton (glm.mk_u32vec3 x y z)) = glm.mk_u32vec3 x y z.
Proof.
  intros Hx Hy Hz. apply unmorton_morton. split; [|split]; assumption.
Qed.

Lemma round_trip_witness :
  in_range 2097151 /\ in_range 5 /\ in_range 1048576 /\
  unmorton (morton (glm.mk_u32vec3 2097151 5 1048576)) =
  glm.mk_u32vec3 2097151 5 1048576.
Proof.
  assert (Hx : in_range 2097151) by (unfold in_range; lia).
  assert (Hy : in_range 5) by (unfold in_range; lia).
  assert (Hz : in_range 1048576) by (unfold in_range; lia).
  split; [exact Hx|]. split; [exact Hy|]. split; [exact Hz|].
  exact (round_trip 2097151 5 1048576 Hx Hy Hz).
Defined.

(** C2. The table-based encoder equals the reference bit interleaving: for
    components in [0, 2^21), bit [i] of [x] is bit [3i] of the code, bit [i]
    of [y] is bit [3i+1] and bit [i] of [z] is bit [3i+2], for all [i] in
    [0, 21), and no bit outside the positions 0..62 is set. *)
Theorem morton_refines_reference (v : glm.u32vec3) :
  valid v ->
  morton v = morton_ref v /\
  (forall i, 0 <= i < 21 ->
     Z.testbit (morton v) (3 * i) = Z.testbit (glm.x v) i /\
     Z.testbit (morton v) (3 * i + 1) = Z.testbit (glm.y v) i /\
     Z.testbit (morton v) (3 * i + 2) = Z.testbit (glm.z v) i) /\
  (forall j, ~ 0 <= j < 63 -> Z.testbit (morton v) j = false).
Proof.
  intros Hv. pose proof (valid_wf v Hv) as Hwf.
  split; [now apply morton_eq_ref|]. split.
  - intros i Hi.
    pose proof (morton_testbit_at coordinate_t.x v i Hwf) as Hx.
    pose proof (morton_testbit_at coordinate_t.y v i Hwf) as Hy.
    pose proof (morton_testbit_at coordinate_t.z v i Hwf) as Hz.
    cbn [coordinate_t.to_uint8 component] in Hx, Hy, Hz.
    rewrite Z.add_0_r in Hx.
    repeat split; [apply Hx | apply Hy | apply Hz]; lia.
  - intros j Hj.
    destruct (Z.lt_ge_cases j 0) as [Hneg|Hpos];
      [now apply Z.testbit_neg_r|].
    rewrite (morton_eq_ref v Hv), morton_ref_testbit by assumption.
    decide_tests. reflexivity.
Qed.

Lemma morton_refines_reference_witness :
  valid (glm.mk_u32vec3 5 3 1048576) /\
  morton (glm.mk_u32vec3 5 3 1048576) = morton_ref (glm.mk_u32vec3 5 3 1048576) /\
  Z.testbit (morton (glm.mk_u32vec3 5 3 1048576)) (3 * 20 + 2) = true.
Proof.
  assert (Hv : valid (glm.mk_u32vec3 5 3 1048576))
    by (unfold valid, in_range; cbn; lia).
  split; [exact Hv|].
  destruct (morton_refines_reference (glm.mk_u32vec3 5 3 1048576) Hv)
    as [Href [Hbits _]].
  split; [exact Href|].
  destruct (Hbits 20) as [_ [_ Hz]]; [lia|].
  rewrite Hz. reflexivity.
Defined.

(** C3, as the code has it.  Nothing masks a component before the table
    lookups, and bit 21 of [x] lands on bit 63 of the code: for arbitrary
    32 bit components, bit 63 of [morton (x, y, z)] equals bit 21 of [x], so
    the code is below 2^63 exactly when that bit is clear, in particular
    whenever [x] is in [0, 2^21). *)
Theorem morton_top_bit (v : glm.u32vec3) :
  glm.wf v ->
  Z.testbit (morton v) 63 = Z.testbit (glm.x v) 21 /\
  (morton v < 2 ^ 63 <-> Z.testbit (glm.x v) 21 = false) /\
  (glm.x v < 2 ^ 21 -> morton v < 2 ^ 63).
Proof.
  intros Hwf.
  assert (Hbit : Z.testbit (morton v) 63 = Z.testbit (glm.x v) 21)
    by (rewrite morton_testbit by (try assumption; lia); reflexivity).
  assert (Hiff : morton v < 2 ^ 63 <-> Z.testbit (glm.x v) 21 = false).
  { rewrite <- Hbit. pose proof (morton_range v) as Hr. unfold is_u64 in Hr.
    split.
    - intros Hlt. apply (testbit_above 63); lia.
    - intros Hb. rewrite Z.testbit_false in Hb by lia.
      change (2 ^ 64) with 18446744073709551616 in Hr.
      change (2 ^ 63) with 9223372036854775808 in *.
      Z.div_mod_to_equations. lia. }
  repeat split; try assumption; try apply Hiff.
  intros Hx. apply Hiff. destruct Hwf as [[Hx0 _] _].
  apply (testbit_above 21); lia.
Qed.

Lemma morton_top_bit_witness :
  glm.wf (glm.mk_u32vec3 7 4294967295 4294967295) /\
  morton (glm.mk_u32vec3 7 4294967295 4294967295) < 2 ^ 63.
Proof.
  assert (Hwf : glm.wf (glm.mk_u32vec3 7 4294967295 4294967295))
    by (unfold glm.wf, is_u32; cbn; lia).
  split; [exact Hwf|].
  apply (morton_top_bit (glm.mk_u32vec3 7 4294967295 4294967295) Hwf).
  reflexivity.
Defined.

(** C3 as stated fails: the component [x = 2^21] is a 32 bit value and its
    code is 2^63, which has bit 63 set. *)
Lemma morton_top_bit_counterexample :
  glm.wf (glm.mk_u32vec3 (2 ^ 21) 0 0) /\
  Z.testbit (morton (glm.mk_u32vec3 (2 ^ 21) 0 0)) 63 = true /\
  ~ morton (glm.mk_u32vec3 (2 ^ 21) 0 0) < 2 ^ 63.
Proof.
  split; [repeat split; (discriminate || reflexivity)|].
  split; [now vm_compute|]. now vm_compute.
Qed.

(** C4. Injectivity on the valid range: two distinct vectors whose
    components all lie in [0, 2^21) have distinct codes. *)
Theorem morton_injective (v1 v2 : glm.u32vec3) :
  valid v1 -> valid v2 -> v1 <> v2 -> morton v1 <> morton v2.
Proof.
  intros H1 H2 Hne Heq. apply Hne.
  rewrite <- (unmorton_morton v1 H1), <- (unmorton_morton v2 H2).
  now rewrite Heq.
Qed.

Lemma morton_injective_witness :
  valid (glm.mk_u32vec3 1 2 3) /\ valid (glm.mk_u32vec3 3 2 1) /\
  glm.mk_u32vec3 1 2 3 <> glm.mk_u32vec3 3 2 1 /\
  morton (glm.mk_u32vec3 1 2 3) <> morton (glm.mk_u32vec3 3 2 1).
Proof.
  assert (H1 : valid (glm.mk_u32vec3 1 2 3))
    by (unfold valid, in_range; cbn; lia).
  assert (H2 : valid (glm.mk_u32vec3 3 2 1))
    by (unfold valid, in_range; cbn; lia).
  assert (Hne : glm.mk_u32vec3 1 2 3 <> glm.mk_u32vec3 3 2 1)
    by discriminate.
  split; [exact H1|]. split; [exact H2|]. split; [exact Hne|].
  exact (morton_injective _ _ H1 H2 Hne).
Defined.

(** C5. Table builder: for every byte [b], [interleave b] is the 32 bit
    word that has bit [i] of [b] at position [3i] (positions 0, 3, ..., 21)
    and zero everywhere else. *)
Theorem interleave_spreads (b : Z) :
  is_u8 b ->
  is_u32 (interleave b) /\
  (forall i, 0 <= i < 8 ->
     Z.testbit (interleave b) (3 * i) = Z.testbit b i) /\
  (forall j, (forall i, 0 <= i < 8 -> j <> 3 * i) ->
     Z.testbit (interleave b) j = false).
Proof.
  intros Hb. split; [|split].
  - assert (Hnn : 0 <= interleave b).
    { apply Z.bits_iff_nonneg_ex. exists 24. intros j Hj.
      rewrite interleave_bits by assumption. decide_tests. reflexivity. }
    split; [assumption|].
    destruct (Z.eq_dec (interleave b) 0) as [->|Hnz]; [reflexivity|].
    apply Z.log2_lt_pow2; [lia|].
    destruct (Z.lt_ge_cases (Z.log2 (interleave b)) 32) as [|Hge];
      [assumption|exfalso].
    pose proof (Z.bit_log2 (interleave b) ltac:(lia)) as Hlog.
    rewrite interleave_bits in Hlog by assumption.
    revert Hlog. decide_tests. discriminate.
  - intros i Hi. rewrite interleave_bits by assumption.
    decide_tests. cbn [andb]. f_equal. Z.div_mod_to_equations; lia.
  - intros j Hj. rewrite interleave_bits by assumption.
    destruct (Z.leb_spec 0 j); [|reflexivity].
    destruct (Z.ltb_spec j 24); [|reflexivity].
    destruct (Z.eqb_spec (j mod 3) 0) as [Hmod|]; [|reflexivity].
    exfalso. apply (Hj (j / 3)); Z.div_mod_to_equations; lia.
Qed.

Lemma interleave_spreads_witness :
  is_u8 255 /\
  Z.testbit (interleave 255) 21 = true /\ Z.testbit (interleave 255) 22 = false.
Proof.
  assert (Hb : is_u8 255) by (unfold is_u8; lia).
  split; [exact Hb|].
  destruct (interleave_spreads 255 Hb) as [_ [Hhit Hmiss]]. split.
  - change 21 with (3 * 7). rewrite (Hhit 7) by lia. reflexivity.
  - apply Hmiss. intros i Hi. lia.
Defined.

(** C6. Axis isolation: for every 32 bit value [c], the code of [(c, 0, 0)]
    has set bits only at positions congruent to 0 modulo 3, the code of
    [(0, c, 0)] only at positions congruent to 1 and the code of [(0, 0, c)]
    only at positions congruent to 2. *)
Theorem axis_isolation (c j : Z) :
  is_u32 c ->
  (Z.testbit (morton (glm.mk_u32vec3 c 0 0)) j = true -> j mod 3 = 0) /\
  (Z.testbit (morton (glm.mk_u32vec3 0 c 0)) j = true -> j mod 3 = 1) /\
  (Z.testbit (morton (glm.mk_u32vec3 0 0 c)) j = true -> j mod 3 = 2).
Proof.
  intros Hc.
  assert (H0 : is_u32 0) by (unfold is_u32; lia).
  assert (Hset : forall v, glm.wf v -> Z.testbit (morton v) j = true ->
                 0 <= j < 64 /\
                 Z.testbit (component (axis j) v) (j / 3) = true).
  { intros v Hwf Hb.
    destruct (Z.lt_ge_cases j 0) as [Hneg|Hpos];
      [rewrite Z.testbit_neg_r in Hb by assumption; discriminate|].
    destruct (Z.lt_ge_cases j 64) as [Hlt|Hge].
    - rewrite morton_testbit in Hb by (try assumption; lia). now split.
    - rewrite (testbit_above 64) in Hb
        by (apply morton_range || assumption).
      discriminate. }
  split; [|split]; intros Hb;
    (apply Hset in Hb;
       [|split; [|split]; first [exact Hc | exact H0]]);
    destruct Hb as [Hj Hb]; revert Hb; unfold axis, component;
    cbn [glm.x glm.y glm.z];
    repeat match goal with
      | |- context [?a =? ?b] => destruct (Z.eqb_spec a b)
      end;
    rewrite ?Z.bits_0; intros Hb;
    try discriminate; try assumption; Z.div_mod_to_equations; lia.
Qed.

Lemma axis_isolation_witness :
  is_u32 4294967295 /\
  (Z.testbit (morton (glm.mk_u32vec3 4294967295 0 0)) 63 = true ->
   63 mod 3 = 0).
Proof.
  assert (Hc : is_u32 4294967295) by (unfold is_u32; lia).
  split; [exact Hc|].
  exact (proj1 (axis_isolation 4294967295 63 Hc)).
Defined.

(** C7. Locality: when two inputs differ only in the low 8 bits of one
    component, their codes agree on every bit at position 24 and above. *)
Theorem locality (S : coordinate_t.t) (v v' : glm.u32vec3) (j : Z) :
  glm.wf v -> glm.wf v' -> same_but_low_byte S v v' -> 24 <= j ->
  Z.testbit (morton v) j = Z.testbit (morton v') j.
Proof.
  intros Hv Hv' [Hup Hother] Hj.
  destruct (Z.lt_ge_cases j 64) as [Hlt|Hge].
  - rewrite !morton_testbit by (try assumption; lia).
    assert (Hdec : axis j = S \/ axis j <> S)
      by (destruct (axis j), S; (now left) || (right; discriminate)).
    destruct Hdec as [Heq|Hne].
    + rewrite Heq.
      replace (j / 3) with (j / 3 - 8 + 8) by lia.
      rewrite <- !Z.shiftr_spec by (Z.div_mod_to_equations; lia).
      now rewrite Hup.
    + now rewrite (Hother _ Hne).
  - rewrite !(testbit_above 64) by (apply morton_range || assumption).
    reflexivity.
Qed.

Lemma locality_witness :
  glm.wf (glm.mk_u32vec3 4660 7 9) /\ glm.wf (glm.mk_u32vec3 4863 7 9) /\
  same_but_low_byte coordinate_t.x
    (glm.mk_u32vec3 4660 7 9) (glm.mk_u32vec3 4863 7 9) /\
  Z.testbit (morton (glm.mk_u32vec3 4660 7 9)) 27 =
  Z.testbit (morton (glm.mk_u32vec3 4863 7 9)) 27.
Proof.
  assert (Hv : glm.wf (glm.mk_u32vec3 4660 7 9))
    by (unfold glm.wf, is_u32; cbn; lia).
  assert (Hv' : glm.wf (glm.mk_u32vec3 4863 7 9))
    by (unfold glm.wf, is_u32; cbn; lia).
  assert (Hsame : same_but_low_byte coordinate_t.x
            (glm.mk_u32vec3 4660 7 9) (glm.mk_u32vec3 4863 7 9)).
  { split; [reflexivity|]. intros S' HS'.
    destruct S'; [now elim HS' | reflexivity ..]. }
  split; [exact Hv|]. split; [exact Hv'|]. split; [exact Hsame|].
  apply (locality coordinate_t.x _ _ 27 Hv Hv' Hsame). lia.
Defined.

(** C8. The literal values: [morton (0,0,0) = 0], [morton (1,0,0) = 1],
    [morton (0,1,0) = 2], [morton (0,0,1) = 4], [morton (1,1,1) = 7],
    [unmorton 0 = (0,0,0)] and [unmorton 7 = (1,1,1)]. *)
Theorem literal_values :
  morton (glm.mk_u32vec3 0 0 0) = 0 /\
  morton (glm.mk_u32vec3 1 0 0) = 1 /\
  morton (glm.mk_u32vec3 0 1 0) = 2 /\
  morton (glm.mk_u32vec3 0 0 1) = 4 /\
  morton (glm.mk_u32vec3 1 1 1) = 7 /\
  unmorton 0 = glm.mk_u32vec3 0 0 0 /\
  unmorton 7 = glm.mk_u32vec3 1 1 1.
Proof. repeat split; now vm_compute. Qed.

(** C9. Totality: for any three 32 bit components [morton], and for any
    64 bit code [unmorton], runs without an out-of-bounds subscript, an
    oversized shift or an unfinished recursion, and returns the one value
    the functions [morton] and [unmorton] denote, which fits the result
    type. *)
Theorem total_and_defined (v : glm.u32vec3) (m : Z) :
  glm.wf v -> is_u64 m ->
  (Checked.morton v = Some (morton v) /\ is_u64 (morton v)) /\
  (Checked.unmorton m = Some (unmorton m) /\ glm.wf (unmorton m)).
Proof.
  intros _ _. repeat split;
    first [ apply checked_morton | apply checked_unmorton
          | apply morton_range | apply unmorton_S_range ].
Qed.

Lemma total_and_defined_witness :
  glm.wf (glm.mk_u32vec3 4294967295 0 16777216) /\
  is_u64 18446744073709551615 /\
  Checked.morton (glm.mk_u32vec3 4294967295 0 16777216) =
    Some (morton (glm.mk_u32vec3 4294967295 0 16777216)) /\
  Checked.unmorton 18446744073709551615 =
    Some (unmorton 18446744073709551615).
Proof.
  assert (Hv : glm.wf (glm.mk_u32vec3 4294967295 0 16777216))
    by (unfold glm.wf, is_u32; cbn; lia).
  assert (Hm : is_u64 18446744073709551615) by (unfold is_u64; lia).
  destruct (total_and_defined _ _ Hv Hm) as [[Hmorton _] [Hunmorton _]].
  split; [exact Hv|]. split; [exact Hm|].
  split; [exact Hmorton | exact Hunmorton].
Defined.

(** C10. Reverse round trip: for every 64 bit code [m],
    [morton (unmorton m) = m]; hence [unmorton] is injective on the 64 bit
    codes and every 64 bit code is the code of some vector of 32 bit
    components. *)
Theorem reverse_round_trip (m : Z) :
  is_u64 m ->
  morton (unmorton m) = m /\
  (forall m', is_u64 m' -> unmorton m = unmorton m' -> m = m') /\
  (exists v, glm.wf v /\ morton v = m).
Proof.
  intros Hm. split; [|split].
  - now apply morton_unmorton.
  - intros m' Hm' Heq.
    rewrite <- (morton_unmorton m Hm), <- (morton_unmorton m' Hm').
    now rewrite Heq.
  - exists (unmorton m). split; [apply unmorton_wf | now apply morton_unmorton].
Qed.

Lemma reverse_round_trip_witness :
  is_u64 18446744073709551615 /\
  morton (unmorton 18446744073709551615) = 18446744073709551615.
Proof.
  assert (Hm : is_u64 18446744073709551615) by (unfold is_u64; lia).
  split; [exact Hm|].
  exact (proj1 (reverse_round_trip 18446744073709551615 Hm)).
Defined.


(** * More about the code *)

(** ** Helpers *)

Lemma below_pow2_of_bits (n a : Z) :
  0 <= n -> 0 <= a -> (forall j, n <= j -> Z.testbit a j = false) ->
  a < 2 ^ n.
Proof.
  intros Hn Ha Hbits.
  destruct (Z.eq_dec a 0) as [->|Hnz]; [apply Z.pow_pos_nonneg; lia|].
  apply Z.log2_lt_pow2; [lia|].
  destruct (Z.lt_ge_cases (Z.log2 a) n) as [|Hge]; [assumption|exfalso].
  pose proof (Z.bit_log2 a ltac:(lia)) as Hlog.
  rewrite (Hbits _ Hge) in Hlog. discriminate.
Qed.

Lemma stored_bits_spec (S : coordinate_t.t) (i : Z) :
  3 * i + coordinate_t.to_uint8 S < 64 <-> i < stored_bits S.
Proof. destruct S; cbn [coordinate_t.to_uint8 stored_bits]; lia. Qed.

Lemma component_stored (S : coordinate_t.t) (v : glm.u32vec3) :
  component S (stored v) = component S v mod 2 ^ stored_bits S.
Proof. now destruct S. Qed.

Lemma interleave_range (b : Z) : is_u8 b -> 0 <= interleave b < 2 ^ 22.
Proof.
  intros Hb.
  assert (Hnn : 0 <= interleave b).
  { apply Z.bits_iff_nonneg_ex. exists 24. intros j Hj.
    rewrite interleave_bits by assumption. decide_tests. reflexivity. }
  split; [assumption|].
  apply below_pow2_of_bits; [lia | assumption |].
  intros j Hj. rewrite interleave_bits by assumption.
  destruct (Z.leb_spec 0 j); [|reflexivity].
  destruct (Z.ltb_spec j 24); [|reflexivity].
  destruct (Z.eqb_spec (j mod 3) 0); [|reflexivity].
  exfalso. Z.div_mod_to_equations; lia.
Qed.

(** ** The decoder on arbitrary codes *)

(** X1. [unmorton<S>] picks every third bit of any 64 bit word: bit [i] of
    the result is bit [3i + S] of the word as long as that position exists,
    and zero otherwise; so the result is below 2^22 for [x] and below 2^21
    for [y] and [z]. *)
Theorem unmorton_S_extracts (S : coordinate_t.t) (m : Z) :
  is_u64 m ->
  (forall i, 0 <= i ->
     Z.testbit (unmorton_S S m) i =
     (i <? stored_bits S) && Z.testbit m (3 * i + coordinate_t.to_uint8 S)) /\
  0 <= unmorton_S S m < 2 ^ stored_bits S.
Proof.
  intros Hm.
  assert (Hbits : forall i, 0 <= i ->
     Z.testbit (unmorton_S S m) i =
     (i <? stored_bits S) && Z.testbit m (3 * i + coordinate_t.to_uint8 S)).
  { intros i Hi. rewrite unmorton_S_bits by assumption. f_equal.
    pose proof (stored_bits_spec S i) as Hs.
    destruct (Z.ltb_spec (3 * i + coordinate_t.to_uint8 S) 64),
             (Z.ltb_spec i (stored_bits S)); (reflexivity || lia). }
  split; [exact Hbits|].
  pose proof (unmorton_S_range S m) as [Hnn _].
  split; [assumption|].
  apply below_pow2_of_bits; [now destruct S | assumption |].
  intros j Hj. rewrite Hbits by (destruct S; cbn [stored_bits] in Hj; lia).
  destruct (Z.ltb_spec j (stored_bits S)); [lia | reflexivity].
Qed.

Lemma unmorton_S_extracts_witness :
  is_u64 18446744073709551615 /\
  unmorton_S coordinate_t.y 18446744073709551615 < 2 ^ 21.
Proof.
  assert (Hm : is_u64 18446744073709551615) by (unfold is_u64; lia).
  split; [exact Hm|].
  exact (proj2 (proj2 (unmorton_S_extracts coordinate_t.y _ Hm))).
Defined.

Lemma unmorton_S_morton_stored (S : coordinate_t.t) (v : glm.u32vec3) :
  glm.wf v -> unmorton_S S (morton v) = component S (stored v).
Proof.
  intros Hwf. rewrite component_stored.
  apply Z.bits_inj'. intros j Hj.
  rewrite unmorton_S_bits by (apply morton_range || assumption).
  rewrite Z.testbit_mod_pow2 by now destruct S.
  pose proof (stored_bits_spec S j) as Hs.
  destruct (Z.ltb_spec (3 * j + coordinate_t.to_uint8 S) 64),
           (Z.ltb_spec j (stored_bits S)); try lia; cbn [andb];
    try reflexivity.
  now apply morton_testbit_at.
Qed.

Lemma unmorton_morton_stored (v : glm.u32vec3) :
  glm.wf v -> unmorton (morton v) = stored v.
Proof.
  intros Hwf. unfold unmorton. cbv zeta.
  rewrite !unmorton_S_morton_stored by assumption. reflexivity.
Qed.

Lemma morton_stored (v : glm.u32vec3) :
  glm.wf v -> morton (stored v) = morton v.
Proof.
  intros Hwf. rewrite <- (unmorton_morton_stored v Hwf).
  apply morton_unmorton, morton_range.
Qed.

(** X2. Round trip without the range restriction: for arbitrary 32 bit
    components, decoding the code returns [x] reduced modulo 2^22 and [y]
    and [z] reduced modulo 2^21. *)
Theorem round_trip_truncates (v : glm.u32vec3) :
  glm.wf v ->
  unmorton (morton v) =
  glm.mk_u32vec3 (glm.x v mod 2 ^ 22) (glm.y v mod 2 ^ 21) (glm.z v mod 2 ^ 21).
Proof. intros Hwf. now apply unmorton_morton_stored. Qed.

Lemma round_trip_truncates_witness :
  glm.wf (glm.mk_u32vec3 4294967295 4294967295 2097152) /\
  unmorton (morton (glm.mk_u32vec3 4294967295 4294967295 2097152)) =
  glm.mk_u32vec3 (4294967295 mod 2 ^ 22) (4294967295 mod 2 ^ 21)
                 (2097152 mod 2 ^ 21).
Proof.
  assert (Hwf : glm.wf (glm.mk_u32vec3 4294967295 4294967295 2097152))
    by (unfold glm.wf, is_u32; cbn; lia).
  split; [exact Hwf|].
  exact (round_trip_truncates _ Hwf).
Defined.

(** X3. Aliasing: two vectors of 32 bit components have the same code
    exactly when they agree on the low 22 bits of [x] and on the low 21 bits
    of [y] and of [z]. *)
Theorem morton_aliases (v w : glm.u32vec3) :
  glm.wf v -> glm.wf w ->
  (morton v = morton w <-> stored v = stored w).
Proof.
  intros Hv Hw. split; intros Heq.
  - rewrite <- (unmorton_morton_stored v Hv), <- (unmorton_morton_stored w Hw).
    now rewrite Heq.
  - rewrite <- (morton_stored v Hv), <- (morton_stored w Hw).
    now rewrite Heq.
Qed.

Lemma morton_aliases_witness :
  glm.wf (glm.mk_u32vec3 1 2097152 3) /\ glm.wf (glm.mk_u32vec3 4194305 0 3) /\
  morton (glm.mk_u32vec3 1 2097152 3) = morton (glm.mk_u32vec3 4194305 0 3).
Proof.
  assert (Hv : glm.wf (glm.mk_u32vec3 1 2097152 3))
    by (unfold glm.wf, is_u32; cbn; lia).
  assert (Hw : glm.wf (glm.mk_u32vec3 4194305 0 3))
    by (unfold glm.wf, is_u32; cbn; lia).
  split; [exact Hv|]. split; [exact Hw|].
  apply (proj2 (morton_aliases _ _ Hv Hw)). reflexivity.
Defined.

(** ** The per-axis codes and their tables *)

Lemma morton_S_disjoint (S S' : coordinate_t.t) (a b : Z) :
  is_u32 a -> is_u32 b -> S <> S' ->
  Z.land (morton_S S a) (morton_S S' b) = 0.
Proof.
  intros Ha Hb Hne. apply Z.bits_inj'. intros j Hj.
  rewrite Z.land_spec, !morton_S_bits, Z.bits_0 by assumption.
  destruct S, S'; try (now elim Hne); cbn [coordinate_t.to_uint8];
    repeat match goal with
      | |- context [?a mod 3 =? 0] => destruct (Z.eqb_spec (a mod 3) 0)
      end;
    try absurd_arith; bool_simpl; reflexivity.
Qed.

Lemma lor_disjoint_add (a b : Z) : Z.land a b = 0 -> Z.lor a b = a + b.
Proof. intros H. rewrite <- Z.add_lor_land, H. lia. Qed.

Lemma morton_add (v : glm.u32vec3) :
  glm.wf v ->
  morton v = morton_S coordinate_t.x (glm.x v)
             + morton_S coordinate_t.y (glm.y v)
             + morton_S coordinate_t.z (glm.z v).
Proof.
  intros [Hx [Hy Hz]]. unfold morton.
  rewrite (lor_disjoint_add (Z.lor _ _)).
  - f_equal. apply lor_disjoint_add.
    apply morton_S_disjoint; (assumption || discriminate).
  - rewrite Z.land_lor_distr_l.
    rewrite !morton_S_disjoint by (assumption || discriminate).
    reflexivity.
Qed.

(** X4. The codes of the three components never share a bit, whatever the
    32 bit components are: the bitwise or that combines them is their
    sum. *)
Theorem morton_is_sum (v : glm.u32vec3) :
  glm.wf v ->
  (forall S S', S <> S' ->
     Z.land (morton_S S (component S v)) (morton_S S' (component S' v)) = 0) /\
  morton v = morton_S coordinate_t.x (glm.x v)
             + morton_S coordinate_t.y (glm.y v)
             + morton_S coordinate_t.z (glm.z v).
Proof.
  intros Hwf. split; [|now apply morton_add].
  intros S S' Hne. destruct Hwf as [Hx [Hy Hz]].
  apply morton_S_disjoint; [now destruct S | now destruct S' | assumption].
Qed.

Lemma morton_is_sum_witness :
  glm.wf (glm.mk_u32vec3 4294967295 4294967295 4294967295) /\
  morton (glm.mk_u32vec3 4294967295 4294967295 4294967295) =
  morton_S coordinate_t.x 4294967295 + morton_S coordinate_t.y 4294967295
  + morton_S coordinate_t.z 4294967295.
Proof.
  assert (Hwf : glm.wf (glm.mk_u32vec3 4294967295 4294967295 4294967295))
    by (unfold glm.wf, is_u32; cbn; lia).
  split; [exact Hwf|].
  exact (proj2 (morton_is_sum _ Hwf)).
Defined.

(** X5. The table of [morton<S>] is shifted by [S] when it is built; the
    result is the same as shifting the code of [morton<x>] left by [S]
    within 64 bits. *)
Theorem morton_S_is_shifted_x (S : coordinate_t.t) (value : Z) :
  is_u32 value ->
  morton_S S value =
  shl64 (morton_S coordinate_t.x value) (coordinate_t.to_uint8 S).
Proof.
  intros Hv. pose proof (to_uint8_range S) as Hs.
  apply Z.bits_inj'. intros j Hj.
  unfold shl64, uint64_t.
  rewrite Z.testbit_mod_pow2, Z.shiftl_spec by lia.
  rewrite !morton_S_bits by assumption.
  cbn [coordinate_t.to_uint8]. rewrite !Z.sub_0_r.
  destruct (Z.ltb_spec j 64), (Z.leb_spec (coordinate_t.to_uint8 S) j);
    decide_tests; bool_simpl; reflexivity.
Qed.

Lemma morton_S_is_shifted_x_witness :
  is_u32 4294967295 /\
  morton_S coordinate_t.z 4294967295 =
  shl64 (morton_S coordinate_t.x 4294967295) 2.
Proof.
  assert (Hv : is_u32 4294967295) by (unfold is_u32; lia).
  split; [exact Hv|].
  exact (morton_S_is_shifted_x coordinate_t.z 4294967295 Hv).
Defined.

Lemma entry_exact (S : coordinate_t.t) (b : Z) :
  is_u8 b ->
  entry S b = interleave b * 2 ^ coordinate_t.to_uint8 S /\
  0 <= entry S b < 2 ^ 24.
Proof.
  intros Hb. pose proof (interleave_range b Hb) as Hr.
  unfold entry, shl32, uint32_t, uint8_t.
  rewrite (Z.mod_small b) by exact Hb.
  rewrite Z.shiftl_mul_pow2 by (destruct S; cbn; lia).
  assert (Hlt : 0 <= interleave b * 2 ^ coordinate_t.to_uint8 S < 2 ^ 24)
    by (destruct S; cbn [coordinate_t.to_uint8];
        change (2 ^ 22) with 4194304 in Hr; change (2 ^ 24) with 16777216;
        change (2 ^ 0) with 1; change (2 ^ 1) with 2; change (2 ^ 2) with 4;
        lia).
  rewrite Z.mod_small by (change (2 ^ 32) with 4294967296;
                          change (2 ^ 24) with 16777216 in Hlt; lia).
  split; [reflexivity | exact Hlt].
Qed.

Lemma table_nth_byte (S : coordinate_t.t) (b : Z) :
  is_u8 b ->
  nth (Z.to_nat b) (table S (index_sequence 256)) 0 = entry S b.
Proof.
  intros Hb. rewrite <- (table_nth S b).
  unfold uint8_t. now rewrite (Z.mod_small b) by exact Hb.
Qed.

(** X6. The table of [morton<S>] has 256 entries, and entry [b] is
    [interleave b] shifted left by [S] without loss: every entry is below
    2^24, so the 32 bit element type never truncates. *)
Theorem table_entries (S : coordinate_t.t) (b : Z) :
  is_u8 b ->
  length (table S (index_sequence 256)) = 256%nat /\
  nth (Z.to_nat b) (table S (index_sequence 256)) 0 =
    interleave b * 2 ^ coordinate_t.to_uint8 S /\
  0 <= nth (Z.to_nat b) (table S (index_sequence 256)) 0 < 2 ^ 24.
Proof.
  intros Hb. split.
  - unfold table. now rewrite length_map, index_sequence_length.
  - rewrite table_nth_byte by assumption. now apply entry_exact.
Qed.

Lemma table_entries_witness :
  is_u8 255 /\
  nth (Z.to_nat 255) (table coordinate_t.z (index_sequence 256)) 0 =
  interleave 255 * 2 ^ 2.
Proof.
  assert (Hb : is_u8 255) by (unfold is_u8; lia).
  split; [exact Hb|].
  exact (proj1 (proj2 (table_entries coordinate_t.z 255 Hb))).
Defined.

(** X7. Table inverse: decoding the table entry of a byte with the decoder
    of the same axis gives the byte back. *)
Theorem unmorton_S_table (S : coordinate_t.t) (b : Z) :
  is_u8 b ->
  unmorton_S S (nth (Z.to_nat b) (table S (index_sequence 256)) 0) = b.
Proof.
  intros Hb. pose proof (to_uint8_range S) as Hs.
  rewrite table_nth_byte by assumption.
  destruct (entry_exact S b Hb) as [Heq Hr].
  assert (Hu64 : is_u64 (entry S b)).
  { unfold is_u64. change (2 ^ 24) with 16777216 in Hr.
    change (2 ^ 64) with 18446744073709551616. lia. }
  apply Z.bits_inj'. intros i Hi.
  rewrite unmorton_S_bits by assumption.
  rewrite Heq, <- Z.shiftl_mul_pow2, Z.shiftl_spec by lia.
  rewrite interleave_bits by assumption.
  replace (3 * i + coordinate_t.to_uint8 S - coordinate_t.to_uint8 S)
    with (3 * i) by lia.
  replace (3 * i / 3) with i by (Z.div_mod_to_equations; lia).
  destruct (Z.lt_ge_cases i 8) as [Hlt|Hge].
  - decide_tests. reflexivity.
  - rewrite (testbit_above 8 b i) by assumption.
    now rewrite !andb_false_r.
Qed.

Lemma unmorton_S_table_witness :
  is_u8 173 /\
  unmorton_S coordinate_t.y
    (nth (Z.to_nat 173) (table coordinate_t.y (index_sequence 256)) 0) = 173.
Proof.
  assert (Hb : is_u8 173) by (unfold is_u8; lia).
  split; [exact Hb|].
  exact (unmorton_S_table coordinate_t.y 173 Hb).
Defined.

(** X8. Encoder and decoder commute with bitwise or: the code of the
    componentwise or of two vectors is the or of their codes, and decoding
    the or of two words gives the componentwise or of what they decode
    to. *)
Theorem codec_commutes_with_or :
  (forall v w, morton (vec_lor v w) = Z.lor (morton v) (morton w)) /\
  (forall a b, unmorton (Z.lor a b) = vec_lor (unmorton a) (unmorton b)).
Proof.
  split.
  - intros v w. unfold morton, vec_lor. cbn [glm.x glm.y glm.z].
    rewrite !morton_S_lor.
    rewrite (lor_interchange (morton_S coordinate_t.x (glm.x v))).
    apply lor_interchange.
  - intros a b. unfold unmorton, vec_lor. cbv zeta. cbn [glm.x glm.y glm.z].
    now rewrite !unmorton_S_lor.
Qed.

(** ** The octree structure of the order *)

Lemma unmorton_S_shiftr (S : coordinate_t.t) (m : Z) :
  is_u64 m ->
  unmorton_S S (Z.shiftr m 3) = Z.shiftr (unmorton_S S m) 1.
Proof.
  intros Hm. pose proof (to_uint8_range S) as Hs.
  assert (Hm3 : is_u64 (Z.shiftr m 3)).
  { unfold is_u64 in *. rewrite Z.shiftr_div_pow2 by lia.
    change (2 ^ 3) with 8. change (2 ^ 64) with 18446744073709551616 in *.
    Z.div_mod_to_equations; lia. }
  apply Z.bits_inj'. intros i Hi.
  rewrite Z.shiftr_spec, !unmorton_S_bits by (assumption || lia).
  rewrite Z.shiftr_spec by lia.
  replace (3 * (i + 1) + coordinate_t.to_uint8 S)
    with (3 * i + coordinate_t.to_uint8 S + 3) by lia.
  destruct (Z.ltb_spec (3 * i + coordinate_t.to_uint8 S + 3) 64) as [Hlt|Hge].
  - decide_tests. reflexivity.
  - rewrite (testbit_above 64 m) by assumption.
    now rewrite andb_false_r.
Qed.

Lemma unmorton_shiftr (m : Z) :
  is_u64 m -> unmorton (Z.shiftr m 3) = halve (unmorton m).
Proof.
  intros Hm. unfold unmorton, halve. cbv zeta. cbn [glm.x glm.y glm.z].
  now rewrite !unmorton_S_shiftr.
Qed.

(** X9. Dropping the lowest three bits of any 64 bit code moves to the
    parent cell: decoding [m >> 3] gives every component of the decoded
    [m] shifted right by one. *)
Theorem unmorton_parent (m : Z) :
  is_u64 m ->
  unmorton (Z.shiftr m 3) =
  glm.mk_u32vec3 (Z.shiftr (glm.x (unmorton m)) 1)
                 (Z.shiftr (glm.y (unmorton m)) 1)
                 (Z.shiftr (glm.z (unmorton m)) 1).
Proof. intros Hm. now apply unmorton_shiftr. Qed.

Lemma unmorton_parent_witness :
  is_u64 18446744073709551615 /\
  unmorton (Z.shiftr 18446744073709551615 3) =
  glm.mk_u32vec3 (Z.shiftr (glm.x (unmorton 18446744073709551615)) 1)
                 (Z.shiftr (glm.y (unmorton 18446744073709551615)) 1)
                 (Z.shiftr (glm.z (unmorton 18446744073709551615)) 1).
Proof.
  assert (Hm : is_u64 18446744073709551615) by (unfold is_u64; lia).
  split; [exact Hm|].
  exact (unmorton_parent _ Hm).
Defined.

Lemma fits_wf (v : glm.u32vec3) : fits v -> glm.wf v.
Proof.
  unfold fits, glm.wf, is_u32. intros [Hx [Hy Hz]].
  change (2 ^ 22) with 4194304 in Hx. change (2 ^ 21) with 2097152 in Hy, Hz.
  change (2 ^ 32) with 4294967296. lia.
Qed.

Lemma fits_stored (v : glm.u32vec3) : fits v -> stored v = v.
Proof.
  intros [Hx [Hy Hz]]. unfold stored.
  rewrite !Z.mod_small by assumption. now destruct v.
Qed.

Lemma morton_halve (v : glm.u32vec3) :
  fits v -> morton (halve v) = Z.shiftr (morton v) 3.
Proof.
  intros Hv. pose proof (morton_range v) as Hr.
  rewrite <- (fits_stored v Hv) at 1.
  rewrite <- (unmorton_morton_stored v (fits_wf v Hv)).
  rewrite <- unmorton_shiftr by assumption.
  apply morton_unmorton.
  unfold is_u64 in *. rewrite Z.shiftr_div_pow2 by lia.
  change (2 ^ 3) with 8. change (2 ^ 64) with 18446744073709551616 in *.
  Z.div_mod_to_equations; lia.
Qed.

Lemma low_three_bits (a : Z) :
  a mod 8 = Z.b2z (Z.testbit a 0) + 2 * Z.b2z (Z.testbit a 1)
            + 4 * Z.b2z (Z.testbit a 2).
Proof.
  rewrite !Z.testbit_spec' by lia.
  change (2 ^ 0) with 1. change (2 ^ 1) with 2. change (2 ^ 2) with 4.
  Z.div_mod_to_equations; lia.
Qed.

Lemma morton_octant (v : glm.u32vec3) :
  glm.wf v -> morton v mod 8 = octant v.
Proof.
  intros Hwf. rewrite low_three_bits. unfold octant.
  pose proof (morton_testbit_at coordinate_t.x v 0 Hwf) as Hx.
  pose proof (morton_testbit_at coordinate_t.y v 0 Hwf) as Hy.
  pose proof (morton_testbit_at coordinate_t.z v 0 Hwf) as Hz.
  cbn [coordinate_t.to_uint8 component Z.mul Z.add] in Hx, Hy, Hz.
  rewrite Hx, Hy, Hz by lia.
  now rewrite !Z.bit0_mod.
Qed.

Lemma morton_step (v : glm.u32vec3) :
  fits v -> morton v = 8 * morton (halve v) + octant v.
Proof.
  intros Hv. rewrite (morton_halve v Hv).
  rewrite <- (morton_octant v (fits_wf v Hv)).
  rewrite Z.shiftr_div_pow2 by lia. change (2 ^ 3) with 8.
  apply Z.div_mod. discriminate.
Qed.

(** X10. The order is the pre-order of the octree: when [x] is below 2^22
    and [y] and [z] are below 2^21, the code of a vector is eight times the
    code of its parent cell (every component shifted right by one) plus the
    number [x mod 2 + 2 (y mod 2) + 4 (z mod 2)] of the child. *)
Theorem morton_parent_child (v : glm.u32vec3) :
  fits v ->
  morton (halve v) = Z.shiftr (morton v) 3 /\
  morton v mod 8 = glm.x v mod 2 + 2 * (glm.y v mod 2) + 4 * (glm.z v mod 2) /\
  morton v = 8 * morton (halve v) + octant v.
Proof.
  intros Hv. split; [|split].
  - now apply morton_halve.
  - apply (morton_octant v). now apply fits_wf.
  - now apply morton_step.
Qed.

Lemma morton_parent_child_witness :
  fits (glm.mk_u32vec3 4194303 2097151 6) /\
  morton (glm.mk_u32vec3 4194303 2097151 6) =
  8 * morton (halve (glm.mk_u32vec3 4194303 2097151 6))
  + octant (glm.mk_u32vec3 4194303 2097151 6).
Proof.
  assert (Hv : fits (glm.mk_u32vec3 4194303 2097151 6))
    by (unfold fits; cbn; lia).
  split; [exact Hv|].
  exact (proj2 (proj2 (morton_parent_child _ Hv))).
Defined.

(** ** The order of the codes *)

Lemma below_fits (n : nat) (v : glm.u32vec3) :
  (n <= 21)%nat -> below (Z.of_nat n) v -> fits v.
Proof.
  intros Hn [Hx [Hy Hz]].
  assert (H21 : 2 ^ Z.of_nat n <= 2 ^ 21) by (apply Z.pow_le_mono_r; lia).
  assert (H22 : 2 ^ 21 < 2 ^ 22) by reflexivity.
  unfold fits. lia.
Qed.

Lemma below_halve (n : nat) (v : glm.u32vec3) :
  below (Z.of_nat (S n)) v -> below (Z.of_nat n) (halve v).
Proof.
  unfold below, halve. cbn [glm.x glm.y glm.z].
  rewrite Nat2Z.inj_succ, Z.pow_succ_r by lia.
  rewrite !Z.shiftr_div_pow2 by lia. change (2 ^ 1) with 2.
  generalize (2 ^ Z.of_nat n). intros p [Hx [Hy Hz]].
  repeat split; Z.div_mod_to_equations; lia.
Qed.

Lemma vec_le_halve (v w : glm.u32vec3) :
  vec_le v w -> vec_le (halve v) (halve w).
Proof.
  unfold vec_le, halve. cbn [glm.x glm.y glm.z].
  rewrite !Z.shiftr_div_pow2 by lia. change (2 ^ 1) with 2.
  intros [Hx [Hy Hz]]. repeat split; Z.div_mod_to_equations; lia.
Qed.

Lemma octant_le (v w : glm.u32vec3) :
  vec_le v w -> halve v = halve w ->
  octant v <= octant w /\ (v <> w -> octant v < octant w).
Proof.
  destruct v as [a b c], w as [a' b' c'].
  unfold vec_le, halve, octant. cbn [glm.x glm.y glm.z].
  rewrite !Z.shiftr_div_pow2 by lia. change (2 ^ 1) with 2.
  intros [Hx [Hy Hz]] Heq. injection Heq as Ha Hb Hc.
  split.
  - Z.div_mod_to_equations; lia.
  - intros Hne.
    assert (Hdiff : a <> a' \/ b <> b' \/ c <> c').
    { destruct (Z.eq_dec a a') as [->|]; [|now left].
      destruct (Z.eq_dec b b') as [->|]; [|right; now left].
      destruct (Z.eq_dec c c') as [->|]; [|right; now right].
      now elim Hne. }
    Z.div_mod_to_equations; lia.
Qed.

Lemma octant_range (v : glm.u32vec3) : 0 <= octant v <= 7.
Proof. unfold octant. Z.div_mod_to_equations; lia. Qed.

Lemma u32vec3_eq_dec (v w : glm.u32vec3) : v = w \/ v <> w.
Proof.
  destruct v as [a b c], w as [a' b' c'].
  destruct (Z.eq_dec a a') as [->|]; [|right; congruence].
  destruct (Z.eq_dec b b') as [->|]; [|right; congruence].
  destruct (Z.eq_dec c c') as [->|]; [|right; congruence].
  now left.
Qed.

Lemma morton_monotone_below (n : nat) (v w : glm.u32vec3) :
  (n <= 21)%nat ->
  below (Z.of_nat n) v -> below (Z.of_nat n) w -> vec_le v w ->
  morton v <= morton w /\ (v <> w -> morton v < morton w).
Proof.
  revert v w. induction n as [|n IH]; intros v w Hn Hv Hw Hle.
  - assert (Heq : v = w).
    { destruct v as [a b c], w as [a' b' c'].
      unfold below in Hv, Hw. cbn in Hv, Hw.
      f_equal; lia. }
    subst w. split; [lia | intros Hne; now elim Hne].
  - rewrite (morton_step v) by (apply (below_fits (S n)); assumption).
    rewrite (morton_step w) by (apply (below_fits (S n)); assumption).
    pose proof (octant_range v) as Hov. pose proof (octant_range w) as How.
    destruct (IH (halve v) (halve w)) as [IHle IHlt];
      [lia | now apply below_halve | now apply below_halve
      | now apply vec_le_halve |].
    destruct (u32vec3_eq_dec (halve v) (halve w)) as [Heq|Hne].
    + destruct (octant_le v w Hle Heq) as [Hole Holt].
      rewrite Heq. split; [lia|]. intros Hvw. specialize (Holt Hvw). lia.
    + specialize (IHlt Hne). split; [lia | intros _; lia].
Qed.

(** X11. On the valid range the code is monotone in the componentwise
    order: if no component of [v] exceeds the same component of [w] then
    the code of [v] does not exceed the code of [w], and it is strictly
    smaller when the vectors differ. *)
Theorem morton_monotone (v w : glm.u32vec3) :
  valid v -> valid w -> vec_le v w ->
  morton v <= morton w /\ (v <> w -> morton v < morton w).
Proof.
  intros Hv Hw Hle.
  apply (morton_monotone_below 21); [lia | exact Hv | exact Hw | exact Hle].
Qed.

Lemma morton_monotone_witness :
  valid (glm.mk_u32vec3 3 5 0) /\ valid (glm.mk_u32vec3 3 6 2097151) /\
  vec_le (glm.mk_u32vec3 3 5 0) (glm.mk_u32vec3 3 6 2097151) /\
  morton (glm.mk_u32vec3 3 5 0) < morton (glm.mk_u32vec3 3 6 2097151).
Proof.
  assert (Hv : valid (glm.mk_u32vec3 3 5 0))
    by (unfold valid, in_range; cbn; lia).
  assert (Hw : valid (glm.mk_u32vec3 3 6 2097151))
    by (unfold valid, in_range; cbn; lia).
  assert (Hle : vec_le (glm.mk_u32vec3 3 5 0) (glm.mk_u32vec3 3 6 2097151))
    by (unfold vec_le; cbn; lia).
  split; [exact Hv|]. split; [exact Hw|]. split; [exact Hle|].
  apply (proj2 (morton_monotone _ _ Hv Hw Hle)). discriminate.
Defined.

(** ** The levels of [interleave] *)

(** X12. [interleave(x, level)] stays within defined behaviour exactly for
    the levels 0 to 4 (given the recursion depth for them): a negative
    level shifts by a negative amount, and from level 5 on the shift
    [x << (1 << level)] is by 32 bits or more and [masks[level]] is outside
    the array. *)
Theorem interleave_level_defined (depth : nat) (x level : Z) :
  (4 < depth)%nat ->
  (Checked.interleave_level depth x level <> None <-> 0 <= level <= 4).
Proof.
  intros Hd. split.
  - intros Hdef.
    destruct (Z.lt_ge_cases level 0) as [Hneg|Hpos].
    + exfalso. apply Hdef. destruct depth as [|depth]; [lia|].
      cbn [Checked.interleave_level].
      replace (level =? 0) with false by (symmetry; apply Z.eqb_neq; lia).
      unfold Checked.shl_int.
      replace (0 <=? level) with false by (symmetry; apply Z.leb_gt; lia).
      reflexivity.
    + destruct (Z.le_gt_cases level 4) as [Hle|Hgt]; [lia|].
      exfalso. apply Hdef. destruct depth as [|depth]; [lia|].
      cbn [Checked.interleave_level].
      replace (level =? 0) with false by (symmetry; apply Z.eqb_neq; lia).
      destruct (Checked.shl_int 1 level) as [k|] eqn:Hk; [|reflexivity].
      cbn [Checked.bind].
      unfold Checked.shl_int in Hk.
      destruct ((0 <=? level) && (level <? 32) && (0 <=? 1)
                && (Z.shiftl 1 level <? 2 ^ 31)); [|discriminate].
      injection Hk as <-.
      unfold Checked.shl.
      replace (Z.shiftl 1 level <? 32) with false; [now rewrite andb_false_r|].
      symmetry. apply Z.ltb_ge.
      rewrite Z.shiftl_mul_pow2, Z.mul_1_l by lia.
      change 32 with (2 ^ 5). apply Z.pow_le_mono_r; lia.
  - intros Hl.
    rewrite <- (Z2Nat.id level) by lia.
    rewrite (checked_interleave_level (Z.to_nat level) depth x) by lia.
    discriminate.
Qed.

Lemma interleave_level_defined_witness :
  (4 < 5)%nat /\ Checked.interleave_level 5 255 4 <> None /\
  ~ Checked.interleave_level 5 255 5 <> None.
Proof.
  assert (Hd : (4 < 5)%nat) by lia.
  split; [exact Hd|]. split.
  - apply (proj2 (interleave_level_defined 5 255 4 Hd)). lia.
  - intros H. apply (proj1 (interleave_level_defined 5 255 5 Hd)) in H. lia.
Defined.

(** ** The codes of a grid of [n] bits per axis *)

Lemma morton_below (n : nat) (v : glm.u32vec3) :
  (n <= 21)%nat -> below (Z.of_nat n) v -> morton v < 2 ^ (3 * Z.of_nat n).
Proof.
  revert v. induction n as [|n IH]; intros v Hn Hv.
  - assert (Heq : v = glm.mk_u32vec3 0 0 0).
    { destruct v as [a b c]. unfold below in Hv. cbn in Hv. f_equal; lia. }
    subst v. now vm_compute.
  - rewrite (morton_step v) by (apply (below_fits (S n)); assumption).
    pose proof (octant_range v) as Ho.
    specialize (IH (halve v) ltac:(lia) (below_halve n v Hv)).
    replace (3 * Z.of_nat (S n)) with (3 * Z.of_nat n + 3) by lia.
    rewrite Z.pow_add_r by lia. change (2 ^ 3) with 8. lia.
Qed.

Lemma unmorton_below (n : nat) (m : Z) :
  (n <= 21)%nat -> 0 <= m < 2 ^ (3 * Z.of_nat n) ->
  below (Z.of_nat n) (unmorton m).
Proof.
  revert m. induction n as [|n IH]; intros m Hn Hm.
  - assert (m = 0) by (cbn in Hm; lia). subst m.
    unfold below. now vm_compute.
  - assert (Hu64 : is_u64 m).
    { unfold is_u64. split; [lia|].
      apply Z.lt_le_trans with (2 ^ (3 * Z.of_nat (S n))); [lia|].
      apply Z.pow_le_mono_r; lia. }
    replace (3 * Z.of_nat (S n)) with (3 * Z.of_nat n + 3) in Hm by lia.
    rewrite Z.pow_add_r in Hm by lia. change (2 ^ 3) with 8 in Hm.
    assert (Hm3 : 0 <= Z.shiftr m 3 < 2 ^ (3 * Z.of_nat n)).
    { rewrite Z.shiftr_div_pow2 by lia. change (2 ^ 3) with 8.
      revert Hm. generalize (2 ^ (3 * Z.of_nat n)). intros p Hm.
      Z.div_mod_to_equations; lia. }
    specialize (IH (Z.shiftr m 3) ltac:(lia) Hm3).
    rewrite (unmorton_shiftr m Hu64) in IH.
    destruct (unmorton_wf m) as [[Hx _] [[Hy _] [Hz _]]].
    revert IH. unfold below, halve. cbn [glm.x glm.y glm.z].
    rewrite !Z.shiftr_div_pow2 by lia. change (2 ^ 1) with 2.
    rewrite Nat2Z.inj_succ, Z.pow_succ_r by lia.
    generalize (2 ^ Z.of_nat n). intros p [Hx' [Hy' Hz']].
    repeat split; try assumption; Z.div_mod_to_equations; lia.
Qed.

(** X13. A grid of [n] bits per axis ([n] at most 21) uses exactly the
    codes below 8^n: the code of a vector whose components are below 2^n is
    below 2^(3n), and every code below 2^(3n) decodes to such a vector. *)
Theorem grid_codes (n : nat) (v : glm.u32vec3) (m : Z) :
  (n <= 21)%nat ->
  below (Z.of_nat n) v -> 0 <= m < 2 ^ (3 * Z.of_nat n) ->
  0 <= morton v < 2 ^ (3 * Z.of_nat n) /\ below (Z.of_nat n) (unmorton m).
Proof.
  intros Hn Hv Hm. split.
  - split; [apply morton_range | now apply morton_below].
  - now apply unmorton_below.
Qed.

Lemma grid_codes_witness :
  (10 <= 21)%nat /\
  below (Z.of_nat 10) (glm.mk_u32vec3 1023 0 512) /\
  0 <= 1073741823 < 2 ^ (3 * Z.of_nat 10) /\
  0 <= morton (glm.mk_u32vec3 1023 0 512) < 2 ^ (3 * Z.of_nat 10) /\
  below (Z.of_nat 10) (unmorton 1073741823).
Proof.
  assert (Hn : (10 <= 21)%nat) by lia.
  assert (Hv : below (Z.of_nat 10) (glm.mk_u32vec3 1023 0 512))
    by (unfold below; cbn; lia).
  assert (Hm : 0 <= 1073741823 < 2 ^ (3 * Z.of_nat 10)) by (cbn; lia).
  split; [exact Hn|]. split; [exact Hv|]. split; [exact Hm|].
  exact (grid_codes 10 (glm.mk_u32vec3 1023 0 512) 1073741823 Hn Hv Hm).
Defined.
